(** * Client-name reconciliation: [src/client_mapping/mapper.py]

    A shallow embedding of [ClientMapper._normalize_name] and
    [ClientMapper._match_client], and the properties of the
    specification that concern them.

    Conventions of the embedding.
    - A Python [str] is a [string]: a sequence of characters with code
      points below 256.  [str.lower], [str.replace] and [str.strip] are
      written out on that alphabet.
    - The similarity function [fuzz.ratio] belongs to the fuzzywuzzy
      library, not to this repository: the matcher is parameterised by
      it (Section variable [ratio]).  Module [Fuzz] gives the instance
      used to run the matcher on concrete inputs.
    - The integer score is a [Z].  The float [best_score / 100] is the
      rational [best_score # 100] in lowest terms, so that [1.0] is
      [1] and [0.0] is [0]; the [k / 100] for integers [k] are
      distinct floats ordered as the rationals are.  The threshold is
      the rational that the configured float denotes.  Rounding
      [k / 100] to a float is monotone and exact at [0.0] and [1.0],
      which is all that the statements below use of the comparison
      with the threshold.
    - The dictionaries that [_match_client] returns are association
      lists from keys to Python values, in the order the literal lists
      them.
    - [best_match is not client] compares object identities.  The
      registry holds one object per entry, so an entry is identified
      by its position in the registry. *)

From Stdlib Require Import List Bool Arith ZArith QArith Qreduction Lia.
From Stdlib Require Import Ascii String Sorted.
From Stdlib Require Import Numbers.DecimalString.
Import ListNotations.

Local Open Scope string_scope.
Local Open Scope list_scope.

(** ** Strings *)

Module PyStr.

(** [str.lower] on one character: A-Z, and the Latin-1 capitals
    U+00C0..U+00DE except the multiplication sign U+00D7. *)
Definition lower_char (c : ascii) : ascii :=
  let n := nat_of_ascii c in
  if ((65 <=? n) && (n <=? 90))%nat then ascii_of_nat (n + 32)
  else if ((192 <=? n) && (n <=? 222) && negb (n =? 215))%nat
       then ascii_of_nat (n + 32)
  else c.

Fixpoint lower (s : string) : string :=
  match s with
  | EmptyString => EmptyString
  | String c s' => String (lower_char c) (lower s')
  end.

(** [str.isspace] on one character. *)
Definition is_space (c : ascii) : bool :=
  let n := nat_of_ascii c in
  (((9 <=? n) && (n <=? 13)) || ((28 <=? n) && (n <=? 32))
   || (n =? 133) || (n =? 160))%nat.

Fixpoint lstrip (s : string) : string :=
  match s with
  | EmptyString => EmptyString
  | String c s' => if is_space c then lstrip s' else s
  end.

Fixpoint rstrip (s : string) : string :=
  match s with
  | EmptyString => EmptyString
  | String c s' =>
      match rstrip s' with
      | EmptyString => if is_space c then EmptyString else String c EmptyString
      | r => String c r
      end
  end.

(** [s.strip()] *)
Definition strip (s : string) : string := rstrip (lstrip s).

(** [s.replace(old, new)] for a non-empty [old]: occurrences are found
    from the left and do not overlap.  [skip] counts the characters of
    an occurrence that are still to be dropped. *)
Fixpoint replace_from (old new : string) (skip : nat) (s : string) : string :=
  match s with
  | EmptyString => EmptyString
  | String c s' =>
      match skip with
      | S k => replace_from old new k s'
      | O =>
          if prefix old s
          then new ++ replace_from old new (length old - 1) s'
          else String c (replace_from old new O s')
      end
  end.

Definition replace (old new s : string) : string := replace_from old new 0 s.

(** [old in s] *)
Fixpoint contains (old s : string) : bool :=
  prefix old s ||
  match s with
  | EmptyString => false
  | String _ s' => contains old s'
  end.

Fixpoint all_chars (P : ascii -> bool) (s : string) : bool :=
  match s with
  | EmptyString => true
  | String c s' => P c && all_chars P s'
  end.

(** [str(n)] for an integer. *)
Definition str_of_int (n : Z) : string := NilZero.string_of_int (Z.to_int n).

End PyStr.

(** ** [ClientMapper._normalize_name] *)

Definition replacements : list (string * string) :=
  [ (" inc.", "");
    (" incorporated", "");
    (" corp.", "");
    (" corporation", "");
    (" llc", "");
    (" l.l.c.", "");
    (" ltd", "");
    (" limited", "");
    (" gmbh", "");
    (" co.", "");
    (" company", "");
    (",", "");
    (".", "") ].

Definition _normalize_name (name : string) : string :=
  if String.eqb name "" then ""
  else
    let name := PyStr.lower name in
    let name :=
      fold_left (fun name '(old, new) => PyStr.replace old new name)
                replacements name in
    PyStr.strip name.

Definition no_period (c : ascii) : bool := negb (Ascii.eqb c ".").
Definition no_comma (c : ascii) : bool := negb (Ascii.eqb c ",").
Definition lower_case (c : ascii) : bool := Ascii.eqb (PyStr.lower_char c) c.

(** The designators that [_normalize_name] removes and that can be
    spelled with the characters of a normalised name. *)
Definition undotted_designators : list string :=
  [" incorporated"; " corporation"; " llc"; " ltd"; " limited"; " gmbh";
   " company"].

Definition has_designator (s : string) : bool :=
  existsb (fun old => PyStr.contains old s) undotted_designators.

(** ** [fuzz.ratio]

    The instance of the similarity function used to evaluate the
    matcher on concrete names: fuzzywuzzy's [ratio] over its
    Levenshtein backend, [round(100 * (len1 + len2 - d) / (len1 + len2))]
    with [d] the insert/delete distance, that is
    [2 * lcs / (len1 + len2)], behind the library's guards for equal
    and for empty arguments. *)

Module Fuzz.

Local Open Scope Z_scope.

(** Length of a longest common subsequence. *)
Fixpoint lcs (s t : string) : nat :=
  match s with
  | EmptyString => O
  | String a s' =>
      (fix inner (t : string) : nat :=
         match t with
         | EmptyString => O
         | String b t' =>
             if Ascii.eqb a b then S (lcs s' t')
             else Nat.max (lcs s' t) (inner t')
         end) t
  end.

(** [int(round(n / d))] for [0 < d]: to nearest, ties to even. *)
Definition intr (n d : Z) : Z :=
  let q := n / d in
  let r := n mod d in
  if 2 * r <? d then q
  else if d <? 2 * r then q + 1
  else if Z.even q then q else q + 1.

Definition ratio (s1 s2 : string) : Z :=
  if String.eqb s1 s2 then 100
  else if (length s1 =? 0)%nat || (length s2 =? 0)%nat then 0
  else intr (200 * Z.of_nat (lcs s1 s2))
            (Z.of_nat (length s1) + Z.of_nat (length s2)).

End Fuzz.

(** ** Data model *)

(** A registry entry, as [ERPNextAPI.get_clients] builds it (the
    fields the matcher reads). *)
Record client := mk_client {
  client_id : string;
  client_name : string;
  client_aliases : list string
}.

(** The [client_info] argument. *)
Record client_info := mk_client_info {
  primary_name : string;
  alternative_names : list string
}.

(** An entry of [alternative_matches]. *)
Record alternative := mk_alternative {
  alt_client_id : string;
  alt_client_name : string;
  alt_confidence_score : Q
}.

Inductive pyval :=
| PNone
| PStr (s : string)
| PFloat (q : Q)
| PStrList (l : list string)
| PAlternatives (l : list alternative).

Definition dict := list (string * pyval).

(** [d.get(key)], with [None] of the option for a missing key. *)
Fixpoint get (key : string) (d : dict) : option pyval :=
  match d with
  | [] => None
  | (k, v) :: d' => if String.eqb k key then Some v else get key d'
  end.

Definition has_key (key : string) (d : dict) : bool :=
  match get key d with Some _ => true | None => false end.

(** The two outcomes.  The accepted-match dictionary has no
    ["recommendation"] entry; the other one stores
    ["CREATE_NEW_CLIENT"] under it. *)
Inductive recommendation := USE_MATCH | CREATE_NEW_CLIENT.

Definition recommendation_of (d : dict) : recommendation :=
  match get "recommendation" d with
  | Some (PStr "CREATE_NEW_CLIENT") => CREATE_NEW_CLIENT
  | _ => USE_MATCH
  end.

(** The local variables of [_match_client] that the loop updates. *)
Record state := mk_state {
  best_match : option nat;
  best_score : Z;
  best_client_id : option string;
  best_client_name : option string;
  match_reasons : list string;
  alternative_matches : list alternative
}.

Definition initial_state : state :=
  {| best_match := None; best_score := 0;
     best_client_id := None; best_client_name := None;
     match_reasons := []; alternative_matches := [] |}.

(** [k / 100] *)
Definition div100 (k : Z) : Q := Qred (k # 100).

Definition opt_str (o : option string) : pyval :=
  match o with Some s => PStr s | None => PNone end.

(** [best_match is client], for the client at position [idx]. *)
Definition is_client (m : option nat) (idx : nat) : bool :=
  match m with Some i => Nat.eqb i idx | None => false end.

(** [sorted(l, key=lambda x: x["confidence_score"], reverse=True)]:
    the stable sort by descending key.  An entry is put in front of
    the entries that followed it in [l] and whose key is not larger. *)
Fixpoint insert_desc (x : alternative) (l : list alternative) : list alternative :=
  match l with
  | [] => [x]
  | y :: l' =>
      if Qle_bool (alt_confidence_score y) (alt_confidence_score x)
      then x :: l
      else y :: insert_desc x l'
  end.

Definition sorted_desc (l : list alternative) : list alternative :=
  fold_right insert_desc [] l.

(** [a] may stand before [b] in a list sorted by descending confidence. *)
Definition conf_ge (a b : alternative) : Prop :=
  (alt_confidence_score b <= alt_confidence_score a)%Q.

Definition exact_reason : string := "Exact name match (normalized)".

Definition name_reason (score : Z) : string :=
  "Fuzzy match with score " ++ PyStr.str_of_int score ++ " against client name".

Definition alias_reason (alias_score : Z) (alias : string) : string :=
  "Fuzzy match with score " ++ PyStr.str_of_int alias_score
    ++ " against alias '" ++ alias ++ "'".

(** ** [ClientMapper._match_client] *)

Section Matcher.

Variable ratio : string -> string -> Z.

Local Open Scope Z_scope.

(** Body of [for alias in client_aliases]. *)
Definition check_alias (idx : nat) (c : client) (normalized_name : string)
    (st : state) (alias : string) : state :=
  let normalized_alias := _normalize_name alias in
  let alias_score := ratio normalized_name normalized_alias in
  if alias_score >? best_score st then
    {| best_match := Some idx;
       best_score := alias_score;
       best_client_id := Some (client_id c);
       best_client_name := Some (client_name c);
       match_reasons := [alias_reason alias_score alias];
       alternative_matches := alternative_matches st |}
  else st.

(** Body of [for name_to_check in all_names_to_check]. *)
Definition check_name (idx : nat) (c : client) (normalized_client_name : string)
    (st : state) (name_to_check : string) : state :=
  let normalized_name := _normalize_name name_to_check in
  let score := ratio normalized_name normalized_client_name in
  let st :=
    if score >? best_score st then
      {| best_match := Some idx;
         best_score := score;
         best_client_id := Some (client_id c);
         best_client_name := Some (client_name c);
         match_reasons := [name_reason score];
         alternative_matches := alternative_matches st |}
    else st in
  if best_score st >? 95 then st
  else fold_left (check_alias idx c normalized_name) (client_aliases c) st.

(** The test that closes an iteration of [for client in existing_clients]. *)
Definition record_alternative (idx : nat) (c : client) (st : state) : state :=
  if (best_score st <? 95) && (best_score st >? 60)
     && negb (is_client (best_match st) idx)
  then
    {| best_match := best_match st;
       best_score := best_score st;
       best_client_id := best_client_id st;
       best_client_name := best_client_name st;
       match_reasons := match_reasons st;
       alternative_matches :=
         alternative_matches st ++
           [ {| alt_client_id := client_id c;
                alt_client_name := client_name c;
                alt_confidence_score := div100 (best_score st) |} ] |}
  else st.

(** [for client in existing_clients], from the client at position
    [idx]; the exact match leaves the loop ([break]). *)
Fixpoint scan (all_names_to_check : list string) (normalized_primary : string)
    (idx : nat) (clients : list client) (st : state) : state :=
  match clients with
  | [] => st
  | c :: rest =>
      let normalized_client_name := _normalize_name (client_name c) in
      if String.eqb normalized_primary normalized_client_name then
        {| best_match := Some idx;
           best_score := 100;
           best_client_id := Some (client_id c);
           best_client_name := Some (client_name c);
           match_reasons := match_reasons st ++ [exact_reason];
           alternative_matches := alternative_matches st |}
      else
        let st :=
          fold_left (check_name idx c normalized_client_name)
                    all_names_to_check st in
        scan all_names_to_check normalized_primary (S idx) rest
             (record_alternative idx c st)
  end.

Definition _match_client (threshold : Q) (existing_clients : list client)
    (info : client_info) : dict :=
  match existing_clients with
  | [] =>
      [ ("matched_client_id", PNone);
        ("matched_client_name", PNone);
        ("confidence_score", PFloat 0);
        ("recommendation", PStr "CREATE_NEW_CLIENT");
        ("suggested_client_name", PStr (primary_name info)) ]
  | _ =>
      let all_names_to_check := primary_name info :: alternative_names info in
      let normalized_primary := _normalize_name (primary_name info) in
      let st :=
        scan all_names_to_check normalized_primary O existing_clients
             initial_state in
      let normalized_score := div100 (best_score st) in
      if Qle_bool threshold normalized_score then
        [ ("matched_client_id", opt_str (best_client_id st));
          ("matched_client_name", opt_str (best_client_name st));
          ("confidence_score", PFloat normalized_score);
          ("match_reasons", PStrList (match_reasons st));
          ("alternative_matches",
            PAlternatives (firstn 3 (sorted_desc (alternative_matches st)))) ]
      else
        [ ("matched_client_id", PNone);
          ("matched_client_name", PNone);
          ("confidence_score",
            PFloat (match best_match st with
                    | Some _ => normalized_score
                    | None => 0%Q
                    end));
          ("recommendation", PStr "CREATE_NEW_CLIENT");
          ("suggested_client_name", PStr (primary_name info));
          ("alternative_matches",
            PAlternatives (firstn 5 (sorted_desc (alternative_matches st)))) ]
  end.

End Matcher.

(** Invariant of the loop: the score is never negative, and the state
    names a client as soon as the score is positive. *)
Definition names_best (st : state) : Prop :=
  (0 <= best_score st)%Z /\
  ((0 < best_score st)%Z -> exists id, best_client_id st = Some id).

(** Every comparison of the names with the canonical name and the
    aliases of [c] scores at most [bound]. *)
Definition scores_at_most (ratio : string -> string -> Z) (bound : Z)
    (names : list string) (c : client) : bool :=
  forallb
    (fun n =>
       (ratio (_normalize_name n) (_normalize_name (client_name c)) <=? bound)%Z
       && forallb
            (fun a =>
               (ratio (_normalize_name n) (_normalize_name a) <=? bound)%Z)
            (client_aliases c))
    names.

(** The entry of [alternative_matches] is the entry of a client of [l]. *)
Definition entry_of (l : list client) (a : alternative) : Prop :=
  exists c, In c l /\ alt_client_id a = client_id c
            /\ alt_client_name a = client_name c.

(** No client of [l] has a canonical name that normalises to [np]. *)
Definition no_exact (np : string) (l : list client) : Prop :=
  forall c, In c l -> np <> _normalize_name (client_name c).

(** The state after the alias [a] of [c] has matched with score 100. *)
Definition selected_by_alias (c : client) (a : string) (st : state) : Prop :=
  best_score st = 100%Z /\
  best_client_id st = Some (client_id c) /\
  best_client_name st = Some (client_name c) /\
  match_reasons st = [alias_reason 100 a].

(** ** [ClientMapper._get_clients] and the method [_match_client]

    The fields of [ClientMapper] that [_get_clients] reads and writes.
    [current_time] is [datetime.now().timestamp()]; [erpnext_clients]
    is what [self.erpnext_api.get_clients()] returns if it is called. *)

Record mapper := mk_mapper {
  client_cache : option (list client);
  client_cache_timestamp : option Q;
  cache_ttl : Q
}.

(** The cache fields as [__init__] sets them. *)
Definition new_mapper : mapper :=
  {| client_cache := None;
     client_cache_timestamp := None;
     cache_ttl := 3600 |}.

(** [x < y] *)
Definition Qlt_bool (x y : Q) : bool := negb (Qle_bool y x).

Definition _get_clients (current_time : Q) (erpnext_clients : list client)
    (self : mapper) : list client * mapper :=
  let fetched :=
    (erpnext_clients,
     {| client_cache := Some erpnext_clients;
        client_cache_timestamp := Some current_time;
        cache_ttl := cache_ttl self |}) in
  match client_cache self, client_cache_timestamp self with
  | Some cache, Some timestamp =>
      if Qlt_bool (current_time - timestamp) (cache_ttl self)
      then (cache, self)
      else fetched
  | _, _ => fetched
  end.

(** [_match_client(self, client_info)] with its first statement,
    [existing_clients = self._get_clients()]. *)
Definition _match_client_self (ratio : string -> string -> Z) (threshold : Q)
    (current_time : Q) (erpnext_clients : list client) (self : mapper)
    (info : client_info) : dict * mapper :=
  let '(existing_clients, self) :=
    _get_clients current_time erpnext_clients self in
  (_match_client ratio threshold existing_clients info, self).

(** ** [ClientMapper.map_client]: the name of the result file

    [client_name = client_info["primary_name"].replace(" ", "_")[:30]]
    and [f"{client_name}_{timestamp}_mapping.json"]. *)

Definition mapping_client_name (primary_name : string) : string :=
  substring 0 30 (PyStr.replace " " "_" primary_name).

Definition mapping_file_name (primary_name timestamp : string) : string :=
  mapping_client_name primary_name ++ "_" ++ timestamp ++ "_mapping.json".

Fixpoint map_chars (f : ascii -> ascii) (s : string) : string :=
  match s with
  | EmptyString => EmptyString
  | String c s' => String (f c) (map_chars f s')
  end.

Definition underscore_space (c : ascii) : ascii :=
  if Ascii.eqb c " " then "_"%char else c.

(** ** [ERPNextAPI]: the client records ([erpnext_integration/api.py]) *)

Module ERPNextAPI.

(** An entry of [response["data"]], with the fields [get_clients]
    turns into the fields the matcher reads; [None] is a missing or
    null field. *)
Record client_data := mk_client_data {
  cd_name : option string;
  cd_client_id : option string;
  cd_client_name : option string;
  cd_client_aliases : option string
}.

(** An entry of the list [get_clients] returns. *)
Record api_client := mk_api_client {
  api_client_id : option string;
  api_client_name : option string;
  api_client_aliases : list string
}.

(** Truth value of a string or [None]. *)
Definition truthy (o : option string) : bool :=
  match o with
  | Some s => negb (String.eqb s "")
  | None => false
  end.

(** [a or b] *)
Definition py_or (a b : option string) : option string :=
  if truthy a then a else b.

(** [s.split(sep)] for a separator of one character. *)
Fixpoint split (sep : ascii) (s : string) : list string :=
  match s with
  | EmptyString => [EmptyString]
  | String c s' =>
      if Ascii.eqb c sep then EmptyString :: split sep s'
      else match split sep s' with
           | w :: ws => String c w :: ws
           | [] => [String c EmptyString]
           end
  end.

(** The dictionary built in the loop of [get_clients]. *)
Definition client_of_data (d : client_data) : api_client :=
  {| api_client_id := py_or (cd_client_id d) (cd_name d);
     api_client_name := cd_client_name d;
     api_client_aliases :=
       match cd_client_aliases d with
       | Some s => if truthy (Some s) then split "," s else []
       | None => []
       end |}.

(** What [_make_request] did: it raised, or it returned a response,
    whose ["data"] entry may be missing. *)
Inductive request_result :=
| Raised
| Response (data : option (list client_data)).

Definition get_clients (r : request_result) : list api_client :=
  match r with
  | Raised => []
  | Response None => []
  | Response (Some data) => map client_of_data data
  end.

(** The [client_data] that [create_client] posts; [stamp] is
    [datetime.now().strftime('%Y%m%d%H%M%S')].  ERPNext gives the
    record its [name]. *)
Definition create_client_data (stamp : string) (info : client_info)
    : client_data :=
  {| cd_name := None;
     cd_client_id := Some ("CLI-" ++ stamp)%string;
     cd_client_name := Some (primary_name info);
     cd_client_aliases := Some (String.concat "," (alternative_names info)) |}.

(** The first step of [update_records]: the client of the contract.
    [client_mapping_result['matched_client_name']] is read for the
    log line of an existing client, and raises on a missing key. *)
Inductive client_step :=
| CreateClient
| UseClient (client_id matched_client_name : pyval)
| RaisesKeyError.

Definition update_records_client (client_mapping_result : dict) : client_step :=
  match get "matched_client_id" client_mapping_result with
  | None | Some PNone => CreateClient
  | Some client_id =>
      match get "matched_client_name" client_mapping_result with
      | Some name => UseClient client_id name
      | None => RaisesKeyError
      end
  end.

End ERPNextAPI.

(** ** Invariant of the scan

    [all] is the registry and [idx] the position of the client whose
    iteration is running.  The best client, when there is one, is the
    client of [all] at the recorded position, at most [idx].  Each
    recorded alternative is the entry of a client at an earlier
    position, which is not the best client, with a score strictly
    between 60 and 95 that is at most the best score. *)

Definition alternative_from (all : list client) (idx : nat) (st : state)
    (a : alternative) : Prop :=
  exists j c k,
    (j < idx)%nat /\ nth_error all j = Some c /\
    a = mk_alternative (client_id c) (client_name c) (div100 k) /\
    (60 < k < 95)%Z /\ (k <= best_score st)%Z /\ best_match st <> Some j.

Definition scan_inv (all : list client) (idx : nat) (st : state) : Prop :=
  (0 <= best_score st)%Z /\
  match best_match st with
  | None =>
      best_score st = 0%Z /\ best_client_id st = None
      /\ best_client_name st = None
  | Some i =>
      (i <= idx)%nat /\
      exists c, nth_error all i = Some c
                /\ best_client_id st = Some (client_id c)
                /\ best_client_name st = Some (client_name c)
  end /\
  Forall (alternative_from all idx st) (alternative_matches st).

(** Every comparison of a name of [names] with the canonical name of a
    client of [all] before position [idx] scores at most [k]
    ([names_at_most]), or less than [k] ([names_below]). *)
Definition names_at_most (ratio : string -> string -> Z) (names : list string)
    (all : list client) (idx : nat) (k : Z) : Prop :=
  forall j c n,
    (j < idx)%nat -> nth_error all j = Some c -> In n names ->
    (ratio (_normalize_name n) (_normalize_name (client_name c)) <= k)%Z.

Definition names_below (ratio : string -> string -> Z) (names : list string)
    (all : list client) (idx : nat) (k : Z) : Prop :=
  forall j c n,
    (j < idx)%nat -> nth_error all j = Some c -> In n names ->
    (ratio (_normalize_name n) (_normalize_name (client_name c)) < k)%Z.

(** The best score bounds the canonical names seen so far, strictly
    so for the clients before the best one. *)
Definition first_best (ratio : string -> string -> Z) (names : list string)
    (all : list client) (idx : nat) (st : state) : Prop :=
  names_at_most ratio names all idx (best_score st) /\
  forall i, best_match st = Some i ->
            (i <= idx)%nat /\ names_below ratio names all i (best_score st).

(** * Properties *)

(** ** Strings *)

Module PyStrFacts.
Import PyStr.

Lemma lower_char_idem (c : ascii) : lower_char (lower_char c) = lower_char c.
Proof. destruct c as [[] [] [] [] [] [] [] []]; reflexivity. Qed.

Lemma lower_empty (s : string) : lower s = "" -> s = "".
Proof. destruct s; [reflexivity | discriminate]. Qed.

Lemma lower_fixed (s : string) :
  all_chars (fun c => Ascii.eqb (lower_char c) c) s = true -> lower s = s.
Proof.
  induction s as [|c s IH]; cbn; [reflexivity|].
  intros H. apply andb_prop in H as [Hc Hs].
  apply Ascii.eqb_eq in Hc. now rewrite Hc, IH.
Qed.

Lemma all_chars_lower (s : string) :
  all_chars (fun c => Ascii.eqb (lower_char c) c) (lower s) = true.
Proof.
  induction s as [|c s IH]; cbn; [reflexivity|].
  rewrite lower_char_idem, Ascii.eqb_refl. exact IH.
Qed.

Section AllChars.
Variable P : ascii -> bool.

Lemma all_chars_replace_from (old : string) (s : string) :
  all_chars P s = true ->
  forall skip, all_chars P (replace_from old "" skip s) = true.
Proof.
  induction s as [|c s IH]; intros H skip; [reflexivity|].
  cbn in H. apply andb_prop in H as [Hc Hs].
  cbn [replace_from]. destruct skip as [|k].
  - destruct (prefix old (String c s)).
    + cbn [append]. now apply IH.
    + cbn. rewrite Hc. now apply IH.
  - now apply IH.
Qed.

Lemma all_chars_replace (old s : string) :
  all_chars P s = true -> all_chars P (replace old "" s) = true.
Proof. intros H. now apply all_chars_replace_from. Qed.

Lemma all_chars_lstrip (s : string) :
  all_chars P s = true -> all_chars P (lstrip s) = true.
Proof.
  induction s as [|c s IH]; intros H; [reflexivity|].
  cbn [lstrip]. destruct (is_space c); [|exact H].
  cbn in H. apply andb_prop in H as [_ Hs]. now apply IH.
Qed.

Lemma all_chars_rstrip (s : string) :
  all_chars P s = true -> all_chars P (rstrip s) = true.
Proof.
  induction s as [|c s IH]; intros H; [reflexivity|].
  cbn in H. apply andb_prop in H as [Hc Hs].
  cbn [rstrip]. specialize (IH Hs).
  destruct (rstrip s) as [|c' r].
  - destruct (is_space c); cbn; [reflexivity | now rewrite Hc].
  - cbn [all_chars] in *. now rewrite Hc.
Qed.

Lemma all_chars_strip (s : string) :
  all_chars P s = true -> all_chars P (strip s) = true.
Proof. intros H. now apply all_chars_rstrip, all_chars_lstrip. Qed.

Lemma all_chars_prefix (old s : string) :
  prefix old s = true -> all_chars P s = true -> all_chars P old = true.
Proof.
  revert s. induction old as [|a old IH]; intros s Hp Hs; [reflexivity|].
  destruct s as [|b s]; cbn in Hp; [discriminate|].
  destruct (ascii_dec a b) as [->|]; [|discriminate].
  cbn in Hs |- *. apply andb_prop in Hs as [Hb Hs].
  rewrite Hb. now apply (IH s).
Qed.

Lemma all_chars_contains (old s : string) :
  contains old s = true -> all_chars P s = true -> all_chars P old = true.
Proof.
  induction s as [|c s IH]; intros Hc Hs.
  - cbn in Hc. rewrite orb_false_r in Hc. now apply (all_chars_prefix old "").
  - cbn [contains] in Hc. apply orb_prop in Hc as [Hp|Hc].
    + now apply (all_chars_prefix old (String c s)).
    + cbn in Hs. apply andb_prop in Hs as [_ Hs]. now apply IH.
Qed.

(** A pattern with a character that [s] does not have is not in [s]. *)
Lemma absent_by_char (old s : string) :
  all_chars P old = false -> all_chars P s = true -> contains old s = false.
Proof.
  intros Ho Hs. destruct (contains old s) eqn:E; [|reflexivity].
  rewrite (all_chars_contains old s E Hs) in Ho. discriminate.
Qed.

End AllChars.

(** Replacing a pattern that does not occur changes nothing. *)
Lemma replace_absent (old new s : string) :
  contains old s = false -> replace old new s = s.
Proof.
  unfold replace. induction s as [|c s IH]; intros H; [reflexivity|].
  cbn [contains] in H. apply orb_false_elim in H as [Hp Hc].
  cbn [replace_from]. rewrite Hp. now rewrite IH.
Qed.

(** Replacing a one-character pattern by nothing leaves no such character. *)
Lemma replace_char_gone (c : ascii) (s : string) :
  all_chars (fun x => negb (Ascii.eqb x c)) (replace (String c "") "" s) = true.
Proof.
  unfold replace. induction s as [|b s IH]; [reflexivity|].
  cbn [replace_from prefix]. destruct (ascii_dec c b) as [->|Hn].
  - replace (prefix "" s) with true by (now destruct s). cbn. exact IH.
  - cbn. rewrite IH, andb_true_r.
    apply negb_true_iff, Ascii.eqb_neq. congruence.
Qed.

Lemma rstrip_idem (s : string) : rstrip (rstrip s) = rstrip s.
Proof.
  induction s as [|c s IH]; [reflexivity|].
  cbn [rstrip]. destruct (rstrip s) as [|c' r] eqn:E.
  - destruct (is_space c) eqn:Ec; [reflexivity|]. cbn. now rewrite Ec.
  - cbn [rstrip] in IH |- *. now rewrite IH.
Qed.

Lemma rstrip_cons_nonspace (c : ascii) (s : string) :
  is_space c = false -> rstrip (String c s) = String c (rstrip s).
Proof.
  intros Hc. cbn [rstrip]. destruct (rstrip s); [now rewrite Hc | reflexivity].
Qed.

Lemma lstrip_head (s : string) :
  lstrip s = "" \/ exists c r, lstrip s = String c r /\ is_space c = false.
Proof.
  induction s as [|c s IH]; [now left|].
  cbn [lstrip]. destruct (is_space c) eqn:Ec; [exact IH|].
  right. now exists c, s.
Qed.

Lemma strip_idem (s : string) : strip (strip s) = strip s.
Proof.
  unfold strip. destruct (lstrip_head s) as [->|(c & r & -> & Hc)].
  - reflexivity.
  - rewrite (rstrip_cons_nonspace c r Hc). cbn [lstrip]. rewrite Hc.
    rewrite <- (rstrip_cons_nonspace c r Hc). apply rstrip_idem.
Qed.

End PyStrFacts.

(** ** The normaliser *)

Lemma normalize_empty : _normalize_name "" = "".
Proof. reflexivity. Qed.

Lemma normalize_unfold (name : string) :
  name <> "" ->
  _normalize_name name =
    PyStr.strip
      (fold_left (fun name '(old, new) => PyStr.replace old new name)
                 replacements (PyStr.lower name)).
Proof.
  intros H. unfold _normalize_name.
  destruct (String.eqb_spec name ""); [contradiction | reflexivity].
Qed.

(** What every normalised name looks like. *)
Lemma normalize_shape (name : string) :
  let y := _normalize_name name in
  PyStr.all_chars lower_case y = true /\
  PyStr.all_chars no_period y = true /\
  PyStr.all_chars no_comma y = true /\
  PyStr.strip y = y.
Proof.
  cbv zeta. destruct (String.eqb_spec name "") as [->|Hne].
  { now rewrite normalize_empty. }
  rewrite (normalize_unfold name Hne).
  unfold replacements. cbn [fold_left].
  repeat split.
  - apply PyStrFacts.all_chars_strip.
    repeat apply PyStrFacts.all_chars_replace.
    apply PyStrFacts.all_chars_lower.
  - apply PyStrFacts.all_chars_strip. apply PyStrFacts.replace_char_gone.
  - apply PyStrFacts.all_chars_strip. apply PyStrFacts.all_chars_replace.
    apply PyStrFacts.replace_char_gone.
  - apply PyStrFacts.strip_idem.
Qed.

Lemma normalize_lower (s : string) :
  _normalize_name (PyStr.lower s) = _normalize_name s.
Proof.
  destruct s as [|c s]; [reflexivity|].
  rewrite !normalize_unfold by discriminate.
  f_equal. f_equal.
  apply PyStrFacts.lower_fixed, PyStrFacts.all_chars_lower.
Qed.

(** C3, as the specification states it, fails: without its period
    [inc] is not a designator of the list, and stays. *)
Lemma normalize_inc_needs_period :
  _normalize_name "Acme Inc." = "acme" /\
  _normalize_name "ACME INC" = "acme inc" /\
  _normalize_name "Acme Inc." <> _normalize_name "ACME INC".
Proof. repeat split. vm_compute. discriminate. Qed.

(** C3 (amended): the normaliser is case-insensitive: two names that
    are equal once lower-cased have the same normalised name, whatever
    designators they carry. *)
Theorem normalize_case_insensitive (s t : string) :
  PyStr.lower s = PyStr.lower t -> _normalize_name s = _normalize_name t.
Proof.
  intros H. rewrite <- (normalize_lower s), <- (normalize_lower t).
  now rewrite H.
Qed.

Lemma normalize_case_insensitive_witness :
  PyStr.lower "Acme Inc." = PyStr.lower "ACME INC." /\
  _normalize_name "Acme Inc." = _normalize_name "ACME INC.".
Proof.
  split; [reflexivity | apply normalize_case_insensitive; reflexivity].
Defined.

(** C7, as the specification states it, fails: removing the periods
    of [l.l.c] spells the designator [llc], which a second pass
    removes. *)
Lemma normalize_not_idempotent :
  _normalize_name "acme l.l.c" = "acme llc" /\
  _normalize_name (_normalize_name "acme l.l.c") = "acme" /\
  _normalize_name (_normalize_name "acme l.l.c") <> _normalize_name "acme l.l.c".
Proof. repeat split. vm_compute. discriminate. Qed.

(** C7 (amended): a normalised name in which none of the designators
    [incorporated], [corporation], [llc], [ltd], [limited], [gmbh],
    [company] (each after a space) occurs is a fixed point of the
    normaliser. *)
Theorem normalize_idempotent_without_designator (x : string) :
  has_designator (_normalize_name x) = false ->
  _normalize_name (_normalize_name x) = _normalize_name x.
Proof.
  intros H. destruct (normalize_shape x) as (Hl & Hp & Hc & Hs).
  set (y := _normalize_name x) in *.
  destruct (String.eqb_spec y "") as [->|Hne]; [reflexivity|].
  rewrite (normalize_unfold y Hne), (PyStrFacts.lower_fixed y Hl).
  unfold has_designator, undotted_designators in H. cbn [existsb] in H.
  repeat (apply orb_false_elim in H as [? H]).
  assert (Dot : forall old, PyStr.all_chars no_period old = false ->
                            PyStr.contains old y = false).
  { intros old Ho. now apply (PyStrFacts.absent_by_char no_period). }
  assert (Com : forall old, PyStr.all_chars no_comma old = false ->
                            PyStr.contains old y = false).
  { intros old Ho. now apply (PyStrFacts.absent_by_char no_comma). }
  unfold replacements. cbn [fold_left].
  rewrite (PyStrFacts.replace_absent " inc." "" y) by now apply Dot.
  rewrite (PyStrFacts.replace_absent " incorporated" "" y) by assumption.
  rewrite (PyStrFacts.replace_absent " corp." "" y) by now apply Dot.
  rewrite (PyStrFacts.replace_absent " corporation" "" y) by assumption.
  rewrite (PyStrFacts.replace_absent " llc" "" y) by assumption.
  rewrite (PyStrFacts.replace_absent " l.l.c." "" y) by now apply Dot.
  rewrite (PyStrFacts.replace_absent " ltd" "" y) by assumption.
  rewrite (PyStrFacts.replace_absent " limited" "" y) by assumption.
  rewrite (PyStrFacts.replace_absent " gmbh" "" y) by assumption.
  rewrite (PyStrFacts.replace_absent " co." "" y) by now apply Dot.
  rewrite (PyStrFacts.replace_absent " company" "" y) by assumption.
  rewrite (PyStrFacts.replace_absent "," "" y) by now apply Com.
  rewrite (PyStrFacts.replace_absent "." "" y) by now apply Dot.
  exact Hs.
Qed.

Lemma normalize_idempotent_without_designator_witness :
  has_designator (_normalize_name "Acme Inc.") = false /\
  _normalize_name (_normalize_name "Acme Inc.") = _normalize_name "Acme Inc.".
Proof.
  split; [reflexivity |].
  apply normalize_idempotent_without_designator. reflexivity.
Defined.

(** ** The similarity instance *)

Module FuzzFacts.
Import Fuzz.
Local Open Scope Z_scope.

Lemma lcs_le (s t : string) :
  (lcs s t <= length s)%nat /\ (lcs s t <= length t)%nat.
Proof.
  revert t. induction s as [|a s IHs]; intros t; [cbn; lia|].
  induction t as [|b t IHt]; [cbn; lia|].
  cbn [lcs length] in *. destruct (Ascii.eqb a b).
  - destruct (IHs t). lia.
  - destruct (IHs (String b t)) as [H1 H2]. cbn [length] in H2. lia.
Qed.

Lemma intr_le (n d k : Z) : 0 < d -> n <= k * d -> intr n d <= k.
Proof.
  intros Hd Hn. unfold intr.
  pose proof (Z.div_mod n d ltac:(lia)) as E.
  pose proof (Z.mod_pos_bound n d Hd) as B.
  assert (Hq : n / d <= k) by (apply Z.div_le_upper_bound; lia).
  destruct (Z.ltb_spec (2 * (n mod d)) d); [exact Hq|].
  assert (n / d < k) by nia.
  destruct (Z.ltb_spec d (2 * (n mod d))); [lia|].
  destruct (Z.even (n / d)); lia.
Qed.

Lemma ratio_le_100 (s t : string) : ratio s t <= 100.
Proof.
  unfold ratio. destruct (String.eqb s t); [lia|].
  destruct s as [|a s]; [cbn; lia|]. destruct t as [|b t]; [cbn; lia|].
  cbn [Nat.eqb length orb].
  destruct (lcs_le (String a s) (String b t)) as [H1 H2].
  cbn [length] in H1, H2. apply intr_le; lia.
Qed.

Lemma ratio_refl (s : string) : ratio s s = 100.
Proof. unfold ratio. now rewrite String.eqb_refl. Qed.

End FuzzFacts.

(** ** The sort of the alternatives *)

Lemma conf_ge_trans (a b c : alternative) :
  conf_ge a b -> conf_ge b c -> conf_ge a c.
Proof. unfold conf_ge. intros H1 H2. now apply (Qle_trans _ _ _ H2 H1). Qed.

Lemma insert_desc_Forall (P : alternative -> Prop) x l :
  P x -> Forall P l -> Forall P (insert_desc x l).
Proof.
  intros Hx Hl. induction Hl as [|y l Hy Hl IH]; cbn.
  - now constructor.
  - destruct (Qle_bool _ _); repeat constructor; assumption.
Qed.

Lemma insert_desc_sorted x l :
  StronglySorted conf_ge l -> StronglySorted conf_ge (insert_desc x l).
Proof.
  induction 1 as [|y l Hs IH Hy]; cbn.
  - repeat constructor.
  - destruct (Qle_bool (alt_confidence_score y) (alt_confidence_score x)) eqn:E.
    + apply Qle_bool_iff in E.
      constructor; [now constructor|].
      constructor; [exact E|].
      eapply Forall_impl; [|exact Hy].
      intros z Hz. now apply (conf_ge_trans x y z).
    + constructor; [exact IH|].
      apply insert_desc_Forall; [|exact Hy].
      unfold conf_ge.
      destruct (Qlt_le_dec (alt_confidence_score y) (alt_confidence_score x))
        as [Hlt|Hle]; [|exact Hle].
      apply Qlt_le_weak, Qle_bool_iff in Hlt. congruence.
Qed.

Lemma in_insert_desc a x l : In a (insert_desc x l) -> a = x \/ In a l.
Proof.
  induction l as [|y l IH]; cbn.
  - intros [<-|[]]. now left.
  - destruct (Qle_bool _ _); cbn.
    + intros [<-|H]; [now left | now right].
    + intros [<-|H]; [right; now left|].
      destruct (IH H) as [->|H']; [now left | right; now right].
Qed.

Lemma in_sorted_desc a l : In a (sorted_desc l) -> In a l.
Proof.
  induction l as [|x l IH]; cbn; [tauto|].
  intros H. apply in_insert_desc in H as [->|H]; [now left | right; auto].
Qed.

Lemma sorted_desc_sorted l : StronglySorted conf_ge (sorted_desc l).
Proof.
  induction l as [|x l IH]; cbn; [constructor | now apply insert_desc_sorted].
Qed.

Lemma in_firstn {A} (x : A) n (l : list A) : In x (firstn n l) -> In x l.
Proof.
  revert n. induction l as [|y l IH]; intros [|n]; cbn; try tauto.
  intros [H|H]; [now left | right; now apply (IH n)].
Qed.

Lemma firstn_sorted n (l : list alternative) :
  StronglySorted conf_ge l -> StronglySorted conf_ge (firstn n l).
Proof.
  intros H. revert n. induction H as [|x l Hs IH Hx]; intros [|n]; cbn;
    try constructor.
  - apply IH.
  - rewrite Forall_forall in *. intros z Hz. apply Hx.
    revert Hz. apply in_firstn.
Qed.

(** ** The matcher *)

Lemma fold_left_inv {A B} (P : A -> Prop) (f : A -> B -> A) (l : list B) :
  (forall a b, In b l -> P a -> P (f a b)) ->
  forall a, P a -> P (fold_left f l a).
Proof.
  induction l as [|b l IH]; intros Hf a Ha; cbn; [exact Ha|].
  apply IH.
  - intros a' b' Hb'. apply Hf. now right.
  - apply Hf; [now left | exact Ha].
Qed.

Lemma div100_100 : div100 100 = 1%Q.
Proof. reflexivity. Qed.

Lemma div100_eq (k : Z) : (div100 k == k # 100)%Q.
Proof. apply Qred_correct. Qed.

Lemma div100_pos (t : Q) (k : Z) :
  (0 < t)%Q -> (t <= div100 k)%Q -> (0 < k)%Z.
Proof.
  intros Ht Hk. rewrite div100_eq in Hk.
  pose proof (Qlt_le_trans _ _ _ Ht Hk) as H.
  unfold Qlt in H. cbn in H. lia.
Qed.

Section MatcherFacts.

Variable ratio : string -> string -> Z.

Local Open Scope Z_scope.

Lemma names_best_initial : names_best initial_state.
Proof. split; cbn; [lia | lia]. Qed.

Lemma names_best_check_alias idx c n st alias :
  names_best st -> names_best (check_alias ratio idx c n st alias).
Proof.
  intros [H0 H1]. unfold check_alias.
  destruct (Z.gtb_spec (ratio n (_normalize_name alias)) (best_score st));
    [|now split].
  split; cbn; [lia|]. intros _. now exists (client_id c).
Qed.

Lemma names_best_check_name idx c cn st name :
  names_best st -> names_best (check_name ratio idx c cn st name).
Proof.
  intros H. unfold check_name.
  set (st1 := if _ >? _ then _ else st).
  assert (H1 : names_best st1).
  { subst st1. destruct H as [H0 H1].
    destruct (Z.gtb_spec (ratio (_normalize_name name) cn) (best_score st));
      [|now split].
    split; cbn; [lia|]. intros _. now exists (client_id c). }
  destruct (best_score st1 >? 95); [exact H1|].
  apply fold_left_inv; [|exact H1].
  intros a b _. apply names_best_check_alias.
Qed.

Lemma names_best_record idx c st :
  names_best st -> names_best (record_alternative idx c st).
Proof.
  intros H. unfold record_alternative. now destruct (_ && _).
Qed.

Lemma names_best_scan names np clients :
  forall idx st, names_best st -> names_best (scan ratio names np idx clients st).
Proof.
  induction clients as [|c rest IH]; intros idx st H; cbn [scan]; [exact H|].
  destruct (String.eqb np (_normalize_name (client_name c))).
  - split; cbn; [lia|]. intros _. now exists (client_id c).
  - apply IH, names_best_record.
    apply fold_left_inv; [|exact H].
    intros a b _. apply names_best_check_name.
Qed.

(** The two dictionaries of a non-empty registry. *)
Lemma match_client_nonempty threshold c rest info :
  _match_client ratio threshold (c :: rest) info =
    let st := scan ratio (primary_name info :: alternative_names info)
                   (_normalize_name (primary_name info)) O (c :: rest)
                   initial_state in
    if Qle_bool threshold (div100 (best_score st)) then
      [ ("matched_client_id", opt_str (best_client_id st));
        ("matched_client_name", opt_str (best_client_name st));
        ("confidence_score", PFloat (div100 (best_score st)));
        ("match_reasons", PStrList (match_reasons st));
        ("alternative_matches",
          PAlternatives (firstn 3 (sorted_desc (alternative_matches st)))) ]
    else
      [ ("matched_client_id", PNone);
        ("matched_client_name", PNone);
        ("confidence_score",
          PFloat (match best_match st with
                  | Some _ => div100 (best_score st)
                  | None => 0%Q
                  end));
        ("recommendation", PStr "CREATE_NEW_CLIENT");
        ("suggested_client_name", PStr (primary_name info));
        ("alternative_matches",
          PAlternatives (firstn 5 (sorted_desc (alternative_matches st)))) ].
Proof. reflexivity. Qed.

Lemma match_client_scan threshold registry info :
  registry <> [] ->
  _match_client ratio threshold registry info =
    let st := scan ratio (primary_name info :: alternative_names info)
                   (_normalize_name (primary_name info)) O registry
                   initial_state in
    if Qle_bool threshold (div100 (best_score st)) then
      [ ("matched_client_id", opt_str (best_client_id st));
        ("matched_client_name", opt_str (best_client_name st));
        ("confidence_score", PFloat (div100 (best_score st)));
        ("match_reasons", PStrList (match_reasons st));
        ("alternative_matches",
          PAlternatives (firstn 3 (sorted_desc (alternative_matches st)))) ]
    else
      [ ("matched_client_id", PNone);
        ("matched_client_name", PNone);
        ("confidence_score",
          PFloat (match best_match st with
                  | Some _ => div100 (best_score st)
                  | None => 0%Q
                  end));
        ("recommendation", PStr "CREATE_NEW_CLIENT");
        ("suggested_client_name", PStr (primary_name info));
        ("alternative_matches",
          PAlternatives (firstn 5 (sorted_desc (alternative_matches st)))) ].
Proof. destruct registry; [congruence | reflexivity]. Qed.

(** *** The scan of a prefix without an exact match *)

Section Scan.

Variable names : list string.
Variable np : string.

Lemma no_exact_cons c l :
  no_exact np (c :: l) ->
  String.eqb np (_normalize_name (client_name c)) = false /\ no_exact np l.
Proof.
  intros H. split.
  - apply String.eqb_neq, H. now left.
  - intros c' Hc'. apply H. now right.
Qed.

Lemma scan_app pre rest :
  no_exact np pre ->
  forall idx st,
    scan ratio names np idx (pre ++ rest) st =
    scan ratio names np (idx + List.length pre) rest
         (scan ratio names np idx pre st).
Proof.
  induction pre as [|c pre IH]; intros H idx st; cbn [scan app List.length].
  - now rewrite Nat.add_0_r.
  - apply no_exact_cons in H as [-> H].
    rewrite (IH H). now rewrite Nat.add_succ_r.
Qed.

(** The comparisons leave [alternative_matches] alone. *)
Lemma alternatives_check_alias idx c n st alias :
  alternative_matches (check_alias ratio idx c n st alias)
  = alternative_matches st.
Proof. unfold check_alias. now destruct (_ >? _). Qed.

Lemma alternatives_check_aliases idx c n aliases :
  forall st,
    alternative_matches (fold_left (check_alias ratio idx c n) aliases st)
    = alternative_matches st.
Proof.
  induction aliases as [|a l IH]; intros st; cbn [fold_left]; [reflexivity|].
  now rewrite IH, alternatives_check_alias.
Qed.

Lemma alternatives_check_name idx c cn st name :
  alternative_matches (check_name ratio idx c cn st name)
  = alternative_matches st.
Proof.
  unfold check_name.
  destruct (ratio (_normalize_name name) cn >? best_score st);
    match goal with |- context [if ?b then _ else _] => destruct b end;
    now rewrite ?alternatives_check_aliases.
Qed.

Lemma alternatives_check_names idx c cn l :
  forall st,
    alternative_matches (fold_left (check_name ratio idx c cn) l st)
    = alternative_matches st.
Proof.
  induction l as [|a l IH]; intros st; cbn [fold_left]; [reflexivity|].
  now rewrite IH, alternatives_check_name.
Qed.

(** Every recorded alternative is the entry of a scanned client. *)
Lemma alternatives_scan clients :
  forall idx st a,
    In a (alternative_matches (scan ratio names np idx clients st)) ->
    In a (alternative_matches st) \/ entry_of clients a.
Proof.
  induction clients as [|c rest IH]; intros idx st a; cbn [scan];
    [now left|].
  destruct (String.eqb np (_normalize_name (client_name c))); [now left|].
  intros H. apply IH in H as [H|(c' & Hc' & E)].
  - unfold record_alternative in H.
    destruct (_ && _); cbn [alternative_matches] in H;
      rewrite ?alternatives_check_names in H; [|now left].
    apply in_app_or in H as [H|[<-|[]]]; [now left|].
    right. exists c. repeat split. now left.
  - right. exists c'. split; [now right | exact E].
Qed.

End Scan.

(** *** A similarity bounded by 100 *)

Section Bounded.

Hypothesis ratio_le_100 : forall s t, ratio s t <= 100.

Lemma frozen_check_alias idx c n st alias :
  best_score st = 100 -> check_alias ratio idx c n st alias = st.
Proof.
  intros H. unfold check_alias. rewrite H.
  destruct (Z.gtb_spec (ratio n (_normalize_name alias)) 100);
    [|reflexivity].
  pose proof (ratio_le_100 n (_normalize_name alias)). lia.
Qed.

Lemma frozen_check_aliases idx c n aliases st :
  best_score st = 100 ->
  fold_left (check_alias ratio idx c n) aliases st = st.
Proof.
  intros H. induction aliases as [|a l IH]; cbn [fold_left]; [reflexivity|].
  now rewrite frozen_check_alias.
Qed.

Lemma frozen_check_name idx c cn st name :
  best_score st = 100 -> check_name ratio idx c cn st name = st.
Proof.
  intros H. unfold check_name. rewrite H.
  destruct (Z.gtb_spec (ratio (_normalize_name name) cn) 100).
  - pose proof (ratio_le_100 (_normalize_name name) cn). lia.
  - now rewrite H.
Qed.

Lemma frozen_check_names idx c cn l st :
  best_score st = 100 ->
  fold_left (check_name ratio idx c cn) l st = st.
Proof.
  intros H. induction l as [|a l IH]; cbn [fold_left]; [reflexivity|].
  now rewrite frozen_check_name.
Qed.

Lemma frozen_record idx c st :
  best_score st = 100 -> record_alternative idx c st = st.
Proof. intros H. unfold record_alternative. now rewrite H. Qed.

Lemma frozen_scan names np clients :
  no_exact np clients ->
  forall idx st,
    best_score st = 100 -> scan ratio names np idx clients st = st.
Proof.
  induction clients as [|c rest IH]; intros Hn idx st H; cbn [scan];
    [reflexivity|].
  apply no_exact_cons in Hn as [-> Hn].
  rewrite frozen_check_names, frozen_record by assumption.
  now apply IH.
Qed.

End Bounded.

(** *** The scan of clients that score at most 95 *)

Lemma quiet_check_alias idx c n st alias :
  best_score st <= 95 -> ratio n (_normalize_name alias) <= 95 ->
  best_score (check_alias ratio idx c n st alias) <= 95.
Proof.
  intros H Ha. unfold check_alias. now destruct (_ >? _).
Qed.

Lemma quiet_check_aliases idx c n aliases :
  forallb (fun a => ratio n (_normalize_name a) <=? 95) aliases = true ->
  forall st,
    best_score st <= 95 ->
    best_score (fold_left (check_alias ratio idx c n) aliases st) <= 95.
Proof.
  induction aliases as [|a l IH]; intros Hq st H; cbn [fold_left];
    [exact H|].
  cbn [forallb] in Hq. apply andb_prop in Hq as [Ha Hl].
  apply IH; [exact Hl|]. apply quiet_check_alias; [exact H | lia].
Qed.

Lemma quiet_check_name idx c st name :
  best_score st <= 95 ->
  ratio (_normalize_name name) (_normalize_name (client_name c)) <= 95 ->
  forallb (fun a => ratio (_normalize_name name) (_normalize_name a) <=? 95)
          (client_aliases c) = true ->
  best_score (check_name ratio idx c (_normalize_name (client_name c)) st name)
    <= 95.
Proof.
  intros H Hn Ha. unfold check_name.
  set (st1 := if _ >? _ then _ else st).
  assert (H1 : best_score st1 <= 95) by (subst st1; now destruct (_ >? _)).
  destruct (best_score st1 >? 95); [exact H1|].
  now apply quiet_check_aliases.
Qed.

Lemma quiet_check_names idx c l :
  scores_at_most ratio 95 l c = true ->
  forall st,
    best_score st <= 95 ->
    best_score
      (fold_left (check_name ratio idx c (_normalize_name (client_name c)))
                 l st) <= 95.
Proof.
  unfold scores_at_most.
  induction l as [|n l IH]; intros Hq st H; cbn [fold_left]; [exact H|].
  cbn [forallb] in Hq. apply andb_prop in Hq as [Hn Hl].
  apply andb_prop in Hn as [Hn Ha].
  apply IH; [exact Hl|]. apply quiet_check_name; [exact H | lia | exact Ha].
Qed.

(** What the closing test of an iteration does: it reads the running
    best score and the running best client. *)
Lemma record_alternative_spec idx c st :
  alternative_matches (record_alternative idx c st) =
    if (60 <? best_score st) && (best_score st <? 95)
       && negb (is_client (best_match st) idx)
    then alternative_matches st ++
           [mk_alternative (client_id c) (client_name c)
                           (div100 (best_score st))]
    else alternative_matches st.
Proof.
  unfold record_alternative. rewrite (Z.gtb_ltb (best_score st) 60).
  destruct (60 <? best_score st), (best_score st <? 95),
    (is_client (best_match st) idx); reflexivity.
Qed.

Lemma quiet_record idx c st :
  best_score (record_alternative idx c st) = best_score st.
Proof. unfold record_alternative. now destruct (_ && _). Qed.

Lemma quiet_scan names np clients :
  no_exact np clients ->
  forallb (scores_at_most ratio 95 names) clients = true ->
  forall idx st,
    best_score st <= 95 ->
    best_score (scan ratio names np idx clients st) <= 95.
Proof.
  induction clients as [|c rest IH]; intros Hn Hq idx st H; cbn [scan];
    [exact H|].
  apply no_exact_cons in Hn as [-> Hn].
  cbn [forallb] in Hq. apply andb_prop in Hq as [Hc Hq].
  apply IH; [exact Hn | exact Hq |].
  rewrite quiet_record. now apply quiet_check_names.
Qed.

(** *** The alias that normalises to the primary name *)

Section AliasHit.

Hypothesis ratio_le_100 : forall s t, ratio s t <= 100.
Hypothesis ratio_refl : forall s, ratio s s = 100.

Lemma alias_hit idx c st primary apre a apost :
  best_score st <= 95 ->
  ratio (_normalize_name primary) (_normalize_name (client_name c)) <= 95 ->
  forallb (fun a' => ratio (_normalize_name primary) (_normalize_name a') <=? 95)
          apre = true ->
  client_aliases c = apre ++ a :: apost ->
  _normalize_name primary = _normalize_name a ->
  selected_by_alias c a
    (check_name ratio idx c (_normalize_name (client_name c)) st primary).
Proof.
  intros H Hn Hpre Hal Ha. unfold check_name.
  set (st1 := if _ >? _ then _ else st).
  assert (H1 : best_score st1 <= 95) by (subst st1; now destruct (_ >? _)).
  destruct (Z.gtb_spec (best_score st1) 95); [lia|].
  rewrite Hal, fold_left_app. cbn [fold_left].
  pose proof (quiet_check_aliases idx c (_normalize_name primary) apre
                Hpre st1 H1) as H2.
  set (st2 := fold_left _ apre st1) in *.
  unfold check_alias at 2. rewrite <- Ha, ratio_refl.
  destruct (Z.gtb_spec 100 (best_score st2)); [|lia].
  rewrite frozen_check_aliases by (assumption || reflexivity).
  now repeat split.
Qed.

Lemma alias_hit_scan names np idx c rest st primary apre a apost :
  np = _normalize_name primary ->
  no_exact np (c :: rest) ->
  best_score st <= 95 ->
  ratio np (_normalize_name (client_name c)) <= 95 ->
  forallb (fun a' => ratio np (_normalize_name a') <=? 95) apre = true ->
  client_aliases c = apre ++ a :: apost ->
  np = _normalize_name a ->
  selected_by_alias c a (scan ratio (primary :: names) np idx (c :: rest) st).
Proof.
  intros -> Hn H Hc Hpre Hal Ha. cbn [scan].
  apply no_exact_cons in Hn as [-> Hn]. cbn [fold_left].
  pose proof (alias_hit idx c st primary apre a apost H Hc Hpre Hal Ha) as Hit.
  set (st' := check_name _ _ _ _ _ _) in *.
  assert (E : best_score st' = 100) by apply Hit.
  rewrite frozen_check_names, frozen_record, frozen_scan; assumption.
Qed.

End AliasHit.

End MatcherFacts.

(** ** The decision *)

Ltac by_branch ratio threshold registry info :=
  destruct registry as [|c0 rest];
  [ cbn
  | rewrite (match_client_nonempty ratio threshold c0 rest info); cbv zeta;
    remember
      (scan ratio (primary_name info :: alternative_names info)
            (_normalize_name (primary_name info)) O (c0 :: rest)
            initial_state) as st eqn:Hst;
    destruct (Qle_bool threshold (div100 (best_score st))) eqn:Hthr;
    cbn -[firstn sorted_desc div100] ].

(** C6: on an empty registry the decision is [CREATE_NEW_CLIENT] with
    confidence [0.0], no matched client and the primary name as the
    suggested name, whatever the similarity function is: none is
    computed. *)
Theorem empty_registry_creates_new
    (ratio : string -> string -> Z) (threshold : Q) (info : client_info) :
  let d := _match_client ratio threshold [] info in
  recommendation_of d = CREATE_NEW_CLIENT /\
  get "confidence_score" d = Some (PFloat 0) /\
  get "matched_client_id" d = Some PNone /\
  get "suggested_client_name" d = Some (PStr (primary_name info)) /\
  forall ratio' : string -> string -> Z,
    _match_client ratio' threshold [] info = d.
Proof. cbv zeta. repeat split. Qed.

(** C4, as the specification states it, fails: at threshold [0.0] a
    candidate that resembles no client is accepted with no client. *)
Lemma use_match_without_client :
  let d := _match_client Fuzz.ratio 0 [mk_client "C2" "ZZZ" []]
                         (mk_client_info "Globex" []) in
  recommendation_of d = USE_MATCH /\
  get "matched_client_id" d = Some PNone /\
  ~ (recommendation_of d = USE_MATCH ->
     exists id, get "matched_client_id" d = Some (PStr id)).
Proof.
  cbv zeta. split; [reflexivity|]. split; [reflexivity|].
  intros H. destruct (H eq_refl) as [id Hid]. vm_compute in Hid. discriminate.
Qed.

(** C8: the decision is monotone in the threshold: a match accepted
    at a threshold is accepted at every lower one. *)
Theorem threshold_monotone
    (ratio : string -> string -> Z) (t1 t2 : Q)
    (registry : list client) (info : client_info) :
  (t1 <= t2)%Q ->
  recommendation_of (_match_client ratio t2 registry info) = USE_MATCH ->
  recommendation_of (_match_client ratio t1 registry info) = USE_MATCH.
Proof.
  intros Hle. destruct registry as [|c0 rest]; [cbn; discriminate|].
  rewrite !match_client_nonempty. cbv zeta.
  set (st := scan ratio _ _ _ _ _).
  destruct (Qle_bool t2 (div100 (best_score st))) eqn:H2; [|cbn; discriminate].
  intros _. apply Qle_bool_iff in H2.
  assert (H1 : Qle_bool t1 (div100 (best_score st)) = true).
  { apply Qle_bool_iff. now apply (Qle_trans _ t2). }
  now rewrite H1.
Qed.

Lemma threshold_monotone_witness :
  (1 # 2 <= 3 # 4)%Q /\
  recommendation_of
    (_match_client Fuzz.ratio (3 # 4)
       [mk_client "C1" "Globex Industrial" []]
       (mk_client_info "Globex Industries" [])) = USE_MATCH /\
  recommendation_of
    (_match_client Fuzz.ratio (1 # 2)
       [mk_client "C1" "Globex Industrial" []]
       (mk_client_info "Globex Industries" [])) = USE_MATCH.
Proof.
  split; [discriminate|]. split; [reflexivity|].
  apply (threshold_monotone Fuzz.ratio (1 # 2) (3 # 4)); [discriminate|].
  reflexivity.
Defined.

(** C5, evaluated: the dictionary returned for an empty registry has
    neither a [match_reasons] nor an [alternative_matches] entry, and
    the one returned below the threshold has no [match_reasons]
    entry. *)
Theorem create_new_lacks_entries :
  (forall (ratio : string -> string -> Z) (threshold : Q) (info : client_info),
     let d := _match_client ratio threshold [] info in
     has_key "match_reasons" d = false /\
     has_key "alternative_matches" d = false) /\
  let d := _match_client Fuzz.ratio (3 # 4) [mk_client "C2" "Initech" []]
                         (mk_client_info "Globex" []) in
  recommendation_of d = CREATE_NEW_CLIENT /\
  has_key "match_reasons" d = false.
Proof. split; [intros; split; reflexivity | split; reflexivity]. Qed.

(** The entries of the two dictionaries.  Both carry
    [matched_client_id], [matched_client_name] and [confidence_score].
    An accepted match carries [match_reasons] and
    [alternative_matches] besides, and no [recommendation] entry.  A
    [CREATE_NEW_CLIENT] decision carries [recommendation] and
    [suggested_client_name] and no [match_reasons]; on a non-empty
    registry it carries [alternative_matches]. *)
Lemma decision_shape
    (ratio : string -> string -> Z) (threshold : Q)
    (registry : list client) (info : client_info) :
  let d := _match_client ratio threshold registry info in
  has_key "matched_client_id" d = true /\
  has_key "matched_client_name" d = true /\
  has_key "confidence_score" d = true /\
  match recommendation_of d with
  | USE_MATCH =>
      has_key "match_reasons" d = true /\
      has_key "alternative_matches" d = true /\
      has_key "recommendation" d = false
  | CREATE_NEW_CLIENT =>
      get "recommendation" d = Some (PStr "CREATE_NEW_CLIENT") /\
      has_key "suggested_client_name" d = true /\
      has_key "match_reasons" d = false /\
      (registry = [] \/ has_key "alternative_matches" d = true)
  end.
Proof.
  cbv zeta. unfold has_key. by_branch ratio threshold registry info.
  - repeat split. now left.
  - destruct (best_client_id st), (best_client_name st); repeat split.
  - repeat split. now right.
Qed.

(** C10: the alternatives of a decision are sorted by descending
    confidence, at most 3 of them for an accepted match and at most 5
    for a [CREATE_NEW_CLIENT] decision; every decision on a non-empty
    registry has them. *)
Theorem alternatives_sorted_and_capped
    (ratio : string -> string -> Z) (threshold : Q)
    (registry : list client) (info : client_info) :
  let d := _match_client ratio threshold registry info in
  (registry = [] \/
   exists alts, get "alternative_matches" d = Some (PAlternatives alts)) /\
  forall alts,
    get "alternative_matches" d = Some (PAlternatives alts) ->
    StronglySorted conf_ge alts /\
    (List.length alts <=
       match recommendation_of d with
       | USE_MATCH => 3
       | CREATE_NEW_CLIENT => 5
       end)%nat.
Proof.
  cbv zeta. by_branch ratio threshold registry info.
  - split; [now left | discriminate].
  - split; [right; eexists; reflexivity|].
    intros alts H.
    assert (E : alts = firstn 3 (sorted_desc (alternative_matches st)))
      by congruence.
    rewrite E. split.
    + apply firstn_sorted, sorted_desc_sorted.
    + rewrite length_firstn. lia.
  - split; [right; eexists; reflexivity|].
    intros alts H.
    assert (E : alts = firstn 5 (sorted_desc (alternative_matches st)))
      by congruence.
    rewrite E. split.
    + apply firstn_sorted, sorted_desc_sorted.
    + rewrite length_firstn. lia.
Qed.

Lemma alternatives_sorted_and_capped_witness :
  let alts := [mk_alternative "C2" "ZZZ" (22 # 25)] in
  get "alternative_matches"
      (_match_client Fuzz.ratio (3 # 4)
         [mk_client "C1" "Globex Industrial" []; mk_client "C2" "ZZZ" []]
         (mk_client_info "Globex Industries" []))
    = Some (PAlternatives alts) /\
  StronglySorted conf_ge alts /\ (List.length alts <= 3)%nat.
Proof.
  cbv zeta. split; [reflexivity|].
  exact (proj2 (alternatives_sorted_and_capped Fuzz.ratio (3 # 4)
                  [mk_client "C1" "Globex Industrial" []; mk_client "C2" "ZZZ" []]
                  (mk_client_info "Globex Industries" []))
               [mk_alternative "C2" "ZZZ" (22 # 25)] eq_refl).
Defined.

(** ** The exact match *)

Lemma exact_match_dict
    (ratio : string -> string -> Z) (threshold : Q) (info : client_info)
    (pre : list client) (c : client) (post : list client) :
  (threshold <= 1)%Q ->
  no_exact (_normalize_name (primary_name info)) pre ->
  _normalize_name (primary_name info) = _normalize_name (client_name c) ->
  _match_client ratio threshold (pre ++ c :: post) info =
    let st := scan ratio (primary_name info :: alternative_names info)
                   (_normalize_name (primary_name info)) O pre
                   initial_state in
    [ ("matched_client_id", PStr (client_id c));
      ("matched_client_name", PStr (client_name c));
      ("confidence_score", PFloat 1);
      ("match_reasons", PStrList (match_reasons st ++ [exact_reason]));
      ("alternative_matches",
        PAlternatives (firstn 3 (sorted_desc (alternative_matches st)))) ].
Proof.
  intros Ht Hpre Hc.
  rewrite match_client_scan by (destruct pre; discriminate).
  cbv zeta. rewrite (scan_app ratio _ _ pre (c :: post) Hpre).
  cbn [scan]. rewrite (proj2 (String.eqb_eq _ _) Hc).
  cbn [best_score best_client_id best_client_name match_reasons
       alternative_matches opt_str].
  rewrite div100_100. apply Qle_bool_iff in Ht. now rewrite Ht.
Qed.

Lemma first_exact_split (np : string) (registry : list client) :
  (exists c0, In c0 registry /\ np = _normalize_name (client_name c0)) ->
  exists pre c post,
    registry = pre ++ c :: post /\
    no_exact np pre /\
    np = _normalize_name (client_name c).
Proof.
  induction registry as [|c1 rest IH]; intros (c0 & Hin & Hc0);
    [destruct Hin|].
  destruct (String.eqb_spec np (_normalize_name (client_name c1))) as [E|N].
  - exists [], c1, rest. repeat split; [|exact E]. intros c' [].
  - destruct IH as (pre & c & post & -> & Hpre & Hc).
    { exists c0. split; [|exact Hc0].
      destruct Hin as [<-|Hin]; [contradiction | exact Hin]. }
    exists (c1 :: pre), c, post. repeat split; [|exact Hc].
    intros c' [<-|Hc']; [exact N | now apply Hpre].
Qed.

(** C1: when the registry has a client whose canonical name normalises
    to the normalised primary name, and the threshold is at most
    [1.0], the decision is [USE_MATCH] with confidence [1.0] for the
    first such client [c]; its last reason is the exact-match reason,
    its alternatives are entries of the clients before [c], and the
    clients after [c] have no part in it. *)
Theorem exact_match_short_circuit
    (ratio : string -> string -> Z) (threshold : Q) (info : client_info)
    (registry : list client) :
  (threshold <= 1)%Q ->
  (exists c0, In c0 registry /\
     _normalize_name (primary_name info) = _normalize_name (client_name c0)) ->
  exists pre c post,
    registry = pre ++ c :: post /\
    no_exact (_normalize_name (primary_name info)) pre /\
    _normalize_name (primary_name info) = _normalize_name (client_name c) /\
    let d := _match_client ratio threshold registry info in
    recommendation_of d = USE_MATCH /\
    get "matched_client_id" d = Some (PStr (client_id c)) /\
    get "matched_client_name" d = Some (PStr (client_name c)) /\
    get "confidence_score" d = Some (PFloat 1) /\
    (exists earlier,
       get "match_reasons" d = Some (PStrList (earlier ++ [exact_reason]))) /\
    (exists alts,
       get "alternative_matches" d = Some (PAlternatives alts) /\
       Forall (entry_of pre) alts) /\
    forall post',
      _match_client ratio threshold (pre ++ c :: post') info = d.
Proof.
  intros Ht Hex.
  destruct (first_exact_split _ registry Hex) as (pre & c & post & -> & Hpre & Hc).
  exists pre, c, post. split; [reflexivity|]. split; [exact Hpre|].
  split; [exact Hc|]. cbv zeta.
  rewrite (exact_match_dict ratio threshold info pre c post Ht Hpre Hc).
  cbv zeta. set (st := scan ratio _ _ _ pre _).
  repeat split.
  - now exists (match_reasons st).
  - eexists. split; [reflexivity|].
    apply Forall_forall. intros a Ha.
    apply in_firstn, in_sorted_desc in Ha.
    apply alternatives_scan in Ha as [[]|Ha]. exact Ha.
  - intros post'. apply exact_match_dict; assumption.
Qed.

Lemma exact_match_short_circuit_witness :
  let info := mk_client_info "Acme Corporation" [] in
  let registry :=
    [ mk_client "C0" "Initech" [];
      mk_client "C1" "Acme Corp." ["Acme"];
      mk_client "C3" "ACME CORPORATION" [] ] in
  (3 # 4 <= 1)%Q /\
  (exists c0, In c0 registry /\
     _normalize_name (primary_name info) = _normalize_name (client_name c0)) /\
  exists pre c post,
    registry = pre ++ c :: post /\
    no_exact (_normalize_name (primary_name info)) pre /\
    _normalize_name (primary_name info) = _normalize_name (client_name c) /\
    get "matched_client_id" (_match_client Fuzz.ratio (3 # 4) registry info)
      = Some (PStr (client_id c)).
Proof.
  cbv zeta.
  assert (Ht : (3 # 4 <= 1)%Q) by (unfold Qle; simpl; lia).
  assert (Hex : exists c0,
             In c0 [ mk_client "C0" "Initech" [];
                     mk_client "C1" "Acme Corp." ["Acme"];
                     mk_client "C3" "ACME CORPORATION" [] ] /\
             _normalize_name "Acme Corporation"
               = _normalize_name (client_name c0)).
  { exists (mk_client "C3" "ACME CORPORATION" []).
    split; [right; right; left; reflexivity | reflexivity]. }
  split; [exact Ht|]. split; [exact Hex|].
  destruct (exact_match_short_circuit Fuzz.ratio (3 # 4)
              (mk_client_info "Acme Corporation" []) _ Ht Hex)
    as (pre & c & post & E & Hpre & Hc & _ & Hid & _).
  exists pre, c, post. repeat split; assumption.
Defined.

(** ** The alias match *)

(** C9, as the specification states it, fails: the alias of [C2]
    normalises to the primary name, no canonical name does, and no
    comparison scores above the 100 of that alias; but the 97 of the
    canonical name of [C1] ends the alias comparisons, and [C1] is
    selected for its canonical name. *)
Lemma alias_match_not_reached :
  let info := mk_client_info "Globex Industries" [] in
  let c1 := mk_client "C1" "Globex Industrie" [] in
  let c2 := mk_client "C2" "Initech" ["Globex Industries"] in
  let np := _normalize_name (primary_name info) in
  let d := _match_client Fuzz.ratio (3 # 4) [c1; c2] info in
  np = _normalize_name "Globex Industries" /\
  no_exact np [c1; c2] /\
  Fuzz.ratio np (_normalize_name "Globex Industries") = 100%Z /\
  Fuzz.ratio np (_normalize_name (client_name c1)) = 97%Z /\
  (Fuzz.ratio np (_normalize_name (client_name c2)) <= 100)%Z /\
  get "matched_client_id" d = Some (PStr "C1") /\
  get "match_reasons" d
    = Some (PStrList ["Fuzzy match with score 97 against client name"]) /\
  ~ (get "matched_client_id" d = Some (PStr (client_id c2))).
Proof.
  cbv zeta. repeat split; try (vm_compute; discriminate).
  intros c [<-|[<-|[]]]; vm_compute; discriminate.
Qed.

(** ** The alternatives *)

(** C2, evaluated: the test that closes the iteration of a client
    reads the running best score, not a score of that client.  [C2]
    scores 0 against the candidate and is recorded with the 0.88 that
    [C1] scored. *)
Theorem alternative_records_running_best :
  let info := mk_client_info "Globex Industries" [] in
  let c1 := mk_client "C1" "Globex Industrial" [] in
  let c2 := mk_client "C2" "ZZZ" [] in
  let d := _match_client Fuzz.ratio (3 # 4) [c1; c2] info in
  Fuzz.ratio (_normalize_name "Globex Industries") (_normalize_name "ZZZ")
    = 0%Z /\
  Fuzz.ratio (_normalize_name "Globex Industries")
             (_normalize_name "Globex Industrial") = 88%Z /\
  get "matched_client_id" d = Some (PStr "C1") /\
  get "alternative_matches" d
    = Some (PAlternatives [mk_alternative "C2" "ZZZ" (div100 88)]).
Proof. cbv zeta. repeat split. Qed.

(** * Further properties of the code *)

(** ** The invariant of the scan *)

Section ScanInvariant.

Variable ratio : string -> string -> Z.
Variable all : list client.

Local Open Scope Z_scope.

Lemma is_client_false m idx : is_client m idx = false <-> m <> Some idx.
Proof.
  destruct m as [i|]; cbn; [|split; [discriminate | reflexivity]].
  rewrite Nat.eqb_neq. split; [congruence | intros H E; apply H; now f_equal].
Qed.

Lemma scan_inv_later idx idx' st :
  (idx <= idx')%nat -> scan_inv all idx st -> scan_inv all idx' st.
Proof.
  intros Hle (H0 & Hb & Ha). repeat split; [exact H0 | |].
  - destruct (best_match st) as [i|]; [|exact Hb].
    destruct Hb as [Hi Hc]. split; [lia | exact Hc].
  - eapply Forall_impl; [|exact Ha].
    intros a (j & c & k & Hj & Hrest). exists j, c, k. split; [lia | exact Hrest].
Qed.

(** A new best client at the running position. *)
Lemma scan_inv_set idx c st score reasons :
  nth_error all idx = Some c ->
  scan_inv all idx st ->
  best_score st < score \/ 94 <= score ->
  scan_inv all idx
    {| best_match := Some idx;
       best_score := score;
       best_client_id := Some (client_id c);
       best_client_name := Some (client_name c);
       match_reasons := reasons;
       alternative_matches := alternative_matches st |}.
Proof.
  intros Hc (H0 & _ & Ha) Hs. repeat split; cbn.
  - lia.
  - lia.
  - now exists c.
  - eapply Forall_impl; [|exact Ha].
    intros a (j & c' & k & Hj & Hn & -> & Hk & Hle & _).
    exists j, c', k. repeat split; cbn; try assumption; try lia.
    intros [= E]. lia.
Qed.

Lemma scan_inv_check_alias idx c n st alias :
  nth_error all idx = Some c ->
  scan_inv all idx st -> scan_inv all idx (check_alias ratio idx c n st alias).
Proof.
  intros Hc H. unfold check_alias.
  destruct (Z.gtb_spec (ratio n (_normalize_name alias)) (best_score st));
    [|exact H].
  apply scan_inv_set; [exact Hc | exact H | now left].
Qed.

Lemma scan_inv_check_name idx c cn st name :
  nth_error all idx = Some c ->
  scan_inv all idx st -> scan_inv all idx (check_name ratio idx c cn st name).
Proof.
  intros Hc H. unfold check_name.
  set (st1 := if _ >? _ then _ else st).
  assert (H1 : scan_inv all idx st1).
  { subst st1.
    destruct (Z.gtb_spec (ratio (_normalize_name name) cn) (best_score st));
      [|exact H].
    apply scan_inv_set; [exact Hc | exact H | now left]. }
  destruct (best_score st1 >? 95); [exact H1|].
  apply fold_left_inv; [|exact H1].
  intros a b _. now apply scan_inv_check_alias.
Qed.

Lemma scan_inv_record idx c st :
  nth_error all idx = Some c ->
  scan_inv all idx st -> scan_inv all (S idx) (record_alternative idx c st).
Proof.
  intros Hc H. unfold record_alternative.
  destruct (Z.ltb_spec (best_score st) 95) as [Hlt|Hge]; cbn [andb];
    [|now apply (scan_inv_later idx); [lia|]].
  destruct (Z.gtb_spec (best_score st) 60) as [Hgt|Hle]; cbn [andb];
    [|now apply (scan_inv_later idx); [lia|]].
  destruct (is_client (best_match st) idx) eqn:E; cbn [negb];
    [now apply (scan_inv_later idx); [lia|] |].
  apply is_client_false in E.
  destruct (scan_inv_later idx (S idx) st ltac:(lia) H) as (H0 & Hb & Ha).
  repeat split; cbn; [exact H0 | exact Hb |].
  apply Forall_app. split; [exact Ha|].
  constructor; [|constructor].
  exists idx, c, (best_score st). repeat split; cbn; try assumption; lia.
Qed.

Lemma scan_inv_scan names np clients :
  forall done st,
    all = done ++ clients ->
    scan_inv all (List.length done) st ->
    scan_inv all (List.length all)
             (scan ratio names np (List.length done) clients st).
Proof.
  induction clients as [|c rest IH]; intros done st E H; cbn [scan].
  - apply (scan_inv_later (List.length done)); [|exact H].
    subst all. rewrite length_app. lia.
  - assert (Hc : nth_error all (List.length done) = Some c).
    { subst all. rewrite nth_error_app2 by lia.
      now rewrite Nat.sub_diag. }
    assert (Hlen : (List.length done <= List.length all)%nat).
    { subst all. rewrite length_app. lia. }
    destruct (String.eqb np (_normalize_name (client_name c))).
    + apply (scan_inv_later (List.length done)); [exact Hlen|].
      apply scan_inv_set; [exact Hc | exact H | right; lia].
    + replace (S (List.length done)) with (List.length (done ++ [c]))
        by (rewrite length_app; cbn; lia).
      apply IH.
      * now rewrite <- app_assoc.
      * rewrite length_app, Nat.add_1_r.
        apply scan_inv_record; [exact Hc|].
        apply fold_left_inv; [|exact H].
        intros a b _. now apply scan_inv_check_name.
Qed.

Lemma scan_inv_initial : scan_inv all 0 initial_state.
Proof. repeat split; cbn; [lia | constructor]. Qed.

(** The state that [_match_client] reads after the loop. *)
Lemma scan_inv_final names np :
  scan_inv all (List.length all) (scan ratio names np 0 all initial_state).
Proof.
  apply (scan_inv_scan names np all [] initial_state eq_refl scan_inv_initial).
Qed.

End ScanInvariant.

(** ** What the caller reads in the decision *)

Lemma div100_between (k : Z) :
  (60 < k < 95)%Z ->
  (3 # 5 < div100 k)%Q /\ (div100 k < 19 # 20)%Q.
Proof.
  intros Hk. rewrite div100_eq. unfold Qlt. cbn. lia.
Qed.

Lemma div100_le (k k' : Z) : (k <= k')%Z -> (div100 k <= div100 k')%Q.
Proof.
  intros Hk. rewrite !div100_eq. unfold Qle. cbn. lia.
Qed.

(** X1: [update_records] never meets a missing key in a decision of
    the matcher.  It creates a client when the decision names none,
    and otherwise uses an accepted match whose id and name are those
    of one client of the registry. *)
Theorem update_records_reads_decision
    (ratio : string -> string -> Z) (threshold : Q)
    (registry : list client) (info : client_info) :
  let d := _match_client ratio threshold registry info in
  match ERPNextAPI.update_records_client d with
  | ERPNextAPI.CreateClient => get "matched_client_id" d = Some PNone
  | ERPNextAPI.UseClient id name =>
      recommendation_of d = USE_MATCH /\
      exists c, In c registry /\ id = PStr (client_id c)
                /\ name = PStr (client_name c)
  | ERPNextAPI.RaisesKeyError => False
  end.
Proof.
  cbv zeta. unfold ERPNextAPI.update_records_client.
  by_branch ratio threshold registry info; try reflexivity.
  destruct (scan_inv_final ratio (c0 :: rest)
              (primary_name info :: alternative_names info)
              (_normalize_name (primary_name info))) as (_ & Hb & _).
  rewrite <- Hst in Hb.
  destruct (best_match st) as [i|].
  - destruct Hb as (_ & c & Hc & -> & ->). cbn. split; [reflexivity|].
    exists c. split; [|now split]. exact (nth_error_In (c0 :: rest) i Hc).
  - destruct Hb as (_ & -> & ->). reflexivity.
Qed.

(** X2: for a positive threshold, [update_records] creates a client
    exactly when the matcher recommends [CREATE_NEW_CLIENT]. *)
Theorem update_records_creates_iff_recommended
    (ratio : string -> string -> Z) (threshold : Q)
    (registry : list client) (info : client_info) :
  (0 < threshold)%Q ->
  let d := _match_client ratio threshold registry info in
  ERPNextAPI.update_records_client d = ERPNextAPI.CreateClient <->
  recommendation_of d = CREATE_NEW_CLIENT.
Proof.
  intros Hpos. cbv zeta. unfold ERPNextAPI.update_records_client.
  by_branch ratio threshold registry info; try (split; reflexivity).
  apply Qle_bool_iff in Hthr.
  pose proof (div100_pos _ _ Hpos Hthr) as Hk.
  destruct (scan_inv_final ratio (c0 :: rest)
              (primary_name info :: alternative_names info)
              (_normalize_name (primary_name info))) as (_ & Hb & _).
  rewrite <- Hst in Hb.
  destruct (best_match st) as [i|].
  - destruct Hb as (_ & c & Hc & -> & ->). cbn. split; discriminate.
  - destruct Hb as (E & _). lia.
Qed.

Lemma update_records_creates_iff_recommended_witness :
  (0 < 3 # 4)%Q /\
  ERPNextAPI.update_records_client
    (_match_client Fuzz.ratio (3 # 4) [mk_client "C2" "Initech" []]
                   (mk_client_info "Globex" []))
  = ERPNextAPI.CreateClient.
Proof.
  split; [reflexivity|].
  apply (update_records_creates_iff_recommended Fuzz.ratio (3 # 4)
           [mk_client "C2" "Initech" []] (mk_client_info "Globex" [])
           eq_refl).
  reflexivity.
Defined.

(** X3: every alternative of a decision is the entry of a client of
    the registry, its confidence is strictly between 0.6 and 0.95, and
    it is at most the confidence of the decision. *)
Theorem alternatives_are_near_misses
    (ratio : string -> string -> Z) (threshold : Q)
    (registry : list client) (info : client_info)
    (alts : list alternative) (q : Q) :
  let d := _match_client ratio threshold registry info in
  get "alternative_matches" d = Some (PAlternatives alts) ->
  get "confidence_score" d = Some (PFloat q) ->
  Forall (fun a =>
            entry_of registry a /\
            (3 # 5 < alt_confidence_score a)%Q /\
            (alt_confidence_score a < 19 # 20)%Q /\
            (alt_confidence_score a <= q)%Q) alts.
Proof.
  cbv zeta.
  assert (Main : forall st n,
             scan_inv registry (List.length registry) st ->
             (best_match st <> None -> q = div100 (best_score st)) ->
             alts = firstn n (sorted_desc (alternative_matches st)) ->
             Forall (fun a =>
                       entry_of registry a /\
                       (3 # 5 < alt_confidence_score a)%Q /\
                       (alt_confidence_score a < 19 # 20)%Q /\
                       (alt_confidence_score a <= q)%Q) alts).
  { intros st n (H0 & Hb & Ha) Hq ->. apply Forall_forall. intros a Hin.
    apply in_firstn, in_sorted_desc in Hin.
    rewrite Forall_forall in Ha.
    destruct (Ha a Hin) as (j & c & k & Hj & Hc & -> & Hk & Hle & _).
    cbn [alt_confidence_score alt_client_id alt_client_name].
    assert (Hsome : best_match st <> None).
    { destruct (best_match st); [discriminate|]. destruct Hb as (E & _). lia. }
    rewrite (Hq Hsome). repeat split.
    - exists c. split; [now apply (nth_error_In _ j) | now split].
    - now apply div100_between.
    - now apply div100_between.
    - now apply div100_le. }
  by_branch ratio threshold registry info; [discriminate | |];
    intros Halts Hq;
    pose proof (scan_inv_final ratio (c0 :: rest)
                  (primary_name info :: alternative_names info)
                  (_normalize_name (primary_name info))) as Hinv;
    rewrite <- Hst in Hinv.
  - apply (Main st 3%nat Hinv); [intros _; congruence | congruence].
  - apply (Main st 5%nat Hinv); [|congruence].
    intros Hsome. destruct (best_match st); [congruence | contradiction].
Qed.

Lemma alternatives_are_near_misses_witness :
  let d := _match_client Fuzz.ratio (3 # 4)
             [mk_client "C1" "Globex Industrial" []; mk_client "C2" "ZZZ" []]
             (mk_client_info "Globex Industries" []) in
  get "alternative_matches" d
    = Some (PAlternatives [mk_alternative "C2" "ZZZ" (22 # 25)]) /\
  get "confidence_score" d = Some (PFloat (22 # 25)) /\
  Forall (fun a => (alt_confidence_score a <= 22 # 25)%Q)
         [mk_alternative "C2" "ZZZ" (22 # 25)].
Proof.
  cbv zeta. split; [reflexivity|]. split; [reflexivity|].
  eapply Forall_impl;
    [|exact (alternatives_are_near_misses Fuzz.ratio (3 # 4)
               [mk_client "C1" "Globex Industrial" []; mk_client "C2" "ZZZ" []]
               (mk_client_info "Globex Industries" [])
               [mk_alternative "C2" "ZZZ" (22 # 25)] (22 # 25)
               eq_refl eq_refl)].
  intros a H. apply H.
Defined.

(** X4: in a registry whose client ids are distinct, the matched
    client is not listed among the alternatives. *)
Theorem matched_client_not_an_alternative
    (ratio : string -> string -> Z) (threshold : Q)
    (registry : list client) (info : client_info)
    (id : string) (alts : list alternative) :
  NoDup (map client_id registry) ->
  let d := _match_client ratio threshold registry info in
  get "matched_client_id" d = Some (PStr id) ->
  get "alternative_matches" d = Some (PAlternatives alts) ->
  Forall (fun a => alt_client_id a <> id) alts.
Proof.
  intros Hnd. cbv zeta.
  by_branch ratio threshold registry info; try discriminate.
  intros Hid Halts.
  destruct (scan_inv_final ratio (c0 :: rest)
              (primary_name info :: alternative_names info)
              (_normalize_name (primary_name info))) as (_ & Hb & Ha).
  rewrite <- Hst in Hb, Ha.
  destruct (best_match st) as [i|] eqn:Ei.
  2:{ destruct Hb as (_ & E & _). rewrite E in Hid. discriminate. }
  destruct Hb as (_ & ci & Hci & E & _). rewrite E in Hid.
  assert (id = client_id ci) by (cbn in Hid; congruence). subst id.
  assert (E' : alts = firstn 3 (sorted_desc (alternative_matches st)))
    by congruence.
  rewrite E'. apply Forall_forall. intros a Hin.
  apply in_firstn, in_sorted_desc in Hin.
  rewrite Forall_forall in Ha.
  destruct (Ha a Hin) as (j & c & k & Hj & Hc & -> & _ & _ & Hne).
  cbn [alt_client_id]. intros Heq. apply Hne. rewrite Ei. f_equal.
  apply (proj1 (NoDup_nth_error (map client_id (c0 :: rest))) Hnd).
  - rewrite length_map. apply nth_error_Some. congruence.
  - rewrite !nth_error_map, Hci, Hc. cbn. now f_equal.
Qed.

Lemma matched_client_not_an_alternative_witness :
  let registry :=
    [mk_client "C1" "Globex Industrial" []; mk_client "C2" "ZZZ" []] in
  let d := _match_client Fuzz.ratio (3 # 4) registry
             (mk_client_info "Globex Industries" []) in
  NoDup (map client_id registry) /\
  get "matched_client_id" d = Some (PStr "C1") /\
  Forall (fun a => alt_client_id a <> "C1")
         [mk_alternative "C2" "ZZZ" (22 # 25)].
Proof.
  cbv zeta.
  assert (Hnd : NoDup (map client_id
                   [mk_client "C1" "Globex Industrial" [];
                    mk_client "C2" "ZZZ" []])).
  { cbn. constructor; [|constructor; [|constructor]]; cbn; [|tauto].
    intros [H|[]]. discriminate H. }
  split; [exact Hnd|]. split; [reflexivity|].
  exact (matched_client_not_an_alternative Fuzz.ratio (3 # 4)
           [mk_client "C1" "Globex Industrial" []; mk_client "C2" "ZZZ" []]
           (mk_client_info "Globex Industries" []) "C1"
           [mk_alternative "C2" "ZZZ" (22 # 25)] Hnd eq_refl eq_refl).
Defined.

(** ** The best score and the comparisons *)

Section ScoreFacts.

Variable ratio : string -> string -> Z.

Local Open Scope Z_scope.

(** The best score never goes down within the iteration of a client. *)
Lemma check_alias_mono idx c n st alias :
  best_score st <= best_score (check_alias ratio idx c n st alias).
Proof.
  unfold check_alias.
  destruct (Z.gtb_spec (ratio n (_normalize_name alias)) (best_score st));
    cbn; lia.
Qed.

Lemma check_alias_ge idx c n st alias :
  ratio n (_normalize_name alias)
    <= best_score (check_alias ratio idx c n st alias).
Proof.
  unfold check_alias.
  destruct (Z.gtb_spec (ratio n (_normalize_name alias)) (best_score st));
    cbn; lia.
Qed.

Lemma check_aliases_mono idx c n aliases :
  forall st,
    best_score st
      <= best_score (fold_left (check_alias ratio idx c n) aliases st).
Proof.
  induction aliases as [|a l IH]; intros st; cbn [fold_left]; [lia|].
  pose proof (check_alias_mono idx c n st a).
  pose proof (IH (check_alias ratio idx c n st a)). lia.
Qed.

Lemma check_aliases_ge idx c n aliases :
  forall st a,
    In a aliases ->
    ratio n (_normalize_name a)
      <= best_score (fold_left (check_alias ratio idx c n) aliases st).
Proof.
  induction aliases as [|a0 l IH]; intros st a []; cbn [fold_left].
  - subst a0. pose proof (check_alias_ge idx c n st a).
    pose proof (check_aliases_mono idx c n l (check_alias ratio idx c n st a)).
    lia.
  - now apply IH.
Qed.

Lemma check_name_mono idx c cn st name :
  best_score st <= best_score (check_name ratio idx c cn st name).
Proof.
  unfold check_name. set (st1 := if _ >? _ then _ else st).
  assert (H1 : best_score st <= best_score st1).
  { subst st1.
    destruct (Z.gtb_spec (ratio (_normalize_name name) cn) (best_score st));
      cbn; lia. }
  destruct (best_score st1 >? 95); [exact H1|].
  pose proof (check_aliases_mono idx c (_normalize_name name)
                (client_aliases c) st1). lia.
Qed.

Lemma check_name_ge idx c cn st name :
  ratio (_normalize_name name) cn
    <= best_score (check_name ratio idx c cn st name).
Proof.
  unfold check_name. set (st1 := if _ >? _ then _ else st).
  assert (H1 : ratio (_normalize_name name) cn <= best_score st1).
  { subst st1.
    destruct (Z.gtb_spec (ratio (_normalize_name name) cn) (best_score st));
      cbn; lia. }
  destruct (best_score st1 >? 95); [exact H1|].
  pose proof (check_aliases_mono idx c (_normalize_name name)
                (client_aliases c) st1). lia.
Qed.

(** With a best score of at most 95 no alias was skipped. *)
Lemma check_name_ge_alias idx c cn st name a :
  best_score (check_name ratio idx c cn st name) <= 95 ->
  In a (client_aliases c) ->
  ratio (_normalize_name name) (_normalize_name a)
    <= best_score (check_name ratio idx c cn st name).
Proof.
  unfold check_name. set (st1 := if _ >? _ then _ else st).
  destruct (Z.gtb_spec (best_score st1) 95); [lia|].
  intros _ Ha. now apply check_aliases_ge.
Qed.

Lemma check_names_mono idx c cn names :
  forall st,
    best_score st
      <= best_score (fold_left (check_name ratio idx c cn) names st).
Proof.
  induction names as [|n l IH]; intros st; cbn [fold_left]; [lia|].
  pose proof (check_name_mono idx c cn st n).
  pose proof (IH (check_name ratio idx c cn st n)). lia.
Qed.

Lemma check_names_ge idx c cn names :
  forall st n,
    In n names ->
    ratio (_normalize_name n) cn
      <= best_score (fold_left (check_name ratio idx c cn) names st).
Proof.
  induction names as [|n0 l IH]; intros st n []; cbn [fold_left].
  - subst n0. pose proof (check_name_ge idx c cn st n).
    pose proof (check_names_mono idx c cn l (check_name ratio idx c cn st n)).
    lia.
  - now apply IH.
Qed.

Lemma check_names_ge_alias idx c cn names :
  forall st n a,
    best_score (fold_left (check_name ratio idx c cn) names st) <= 95 ->
    In n names -> In a (client_aliases c) ->
    ratio (_normalize_name n) (_normalize_name a)
      <= best_score (fold_left (check_name ratio idx c cn) names st).
Proof.
  induction names as [|n0 l IH]; intros st n a H95 [] Ha; cbn [fold_left] in *.
  - subst n0.
    pose proof (check_names_mono idx c cn l (check_name ratio idx c cn st n))
      as Hm.
    pose proof (check_name_ge_alias idx c cn st n a ltac:(lia) Ha). lia.
  - now apply IH.
Qed.

(** Over the whole loop the best score ends at the 100 of an exact
    match, or never went down. *)
Lemma scan_mono names np clients :
  forall idx st,
    best_score (scan ratio names np idx clients st) = 100 \/
    best_score st <= best_score (scan ratio names np idx clients st).
Proof.
  induction clients as [|c rest IH]; intros idx st; cbn [scan];
    [right; lia|].
  destruct (String.eqb np (_normalize_name (client_name c))); [now left|].
  set (st' := fold_left _ names st).
  destruct (IH (S idx) (record_alternative idx c st')) as [E|Hle];
    [now left | right].
  rewrite quiet_record in Hle.
  pose proof (check_names_mono idx c (_normalize_name (client_name c))
                names st) as H. fold st' in H. lia.
Qed.

(** The final score is the 100 of an exact match, or at least every
    comparison with a canonical name. *)
Lemma scan_ge_names names np clients :
  forall idx st,
    best_score (scan ratio names np idx clients st) = 100 \/
    forall c n,
      In c clients -> In n names ->
      ratio (_normalize_name n) (_normalize_name (client_name c))
        <= best_score (scan ratio names np idx clients st).
Proof.
  induction clients as [|c0 rest IH]; intros idx st; cbn [scan];
    [right; intros c n []|].
  destruct (String.eqb np (_normalize_name (client_name c0))); [now left|].
  set (st' := fold_left _ names st).
  destruct (IH (S idx) (record_alternative idx c0 st')) as [E|Hrest];
    [now left|].
  destruct (scan_mono names np rest (S idx) (record_alternative idx c0 st'))
    as [E|Hle]; [now left | right].
  rewrite quiet_record in Hle.
  intros c n [<-|Hc] Hn; [|now apply Hrest].
  pose proof (check_names_ge idx c0 (_normalize_name (client_name c0))
                names st n Hn) as H. fold st' in H. lia.
Qed.

(** A final score of at most 95 is at least every comparison. *)
Lemma scan_ge_all names np clients :
  forall idx st,
    best_score (scan ratio names np idx clients st) <= 95 ->
    forall c n,
      In c clients -> In n names ->
      ratio (_normalize_name n) (_normalize_name (client_name c))
        <= best_score (scan ratio names np idx clients st) /\
      forall a,
        In a (client_aliases c) ->
        ratio (_normalize_name n) (_normalize_name a)
          <= best_score (scan ratio names np idx clients st).
Proof.
  induction clients as [|c0 rest IH]; intros idx st H95 c n Hc Hn;
    [destruct Hc|].
  cbn [scan] in *.
  destruct (String.eqb np (_normalize_name (client_name c0)));
    [cbn in H95; lia|].
  set (st' := fold_left _ names st) in *.
  destruct Hc as [<-|Hc]; [|now apply IH].
  destruct (scan_mono names np rest (S idx) (record_alternative idx c0 st'))
    as [E|Hle]; [lia|].
  rewrite quiet_record in Hle.
  split.
  - pose proof (check_names_ge idx c0 (_normalize_name (client_name c0))
                  names st n Hn) as H. fold st' in H. lia.
  - intros a Ha.
    pose proof (check_names_ge_alias idx c0 (_normalize_name (client_name c0))
                  names st n a) as H. fold st' in H.
    specialize (H ltac:(lia) Hn Ha). lia.
Qed.

(** A similarity of at most 100 keeps the best score at most 100. *)
Section AtMost100.

Hypothesis ratio_le_100 : forall s t, ratio s t <= 100.

Lemma check_alias_le_100 idx c n st alias :
  best_score st <= 100 ->
  best_score (check_alias ratio idx c n st alias) <= 100.
Proof.
  intros H. unfold check_alias.
  destruct (ratio n (_normalize_name alias) >? best_score st);
    [cbn; apply ratio_le_100 | exact H].
Qed.

Lemma check_name_le_100 idx c cn st name :
  best_score st <= 100 ->
  best_score (check_name ratio idx c cn st name) <= 100.
Proof.
  intros H. unfold check_name.
  set (st1 := if _ >? _ then _ else st).
  assert (H1 : best_score st1 <= 100).
  { subst st1.
    destruct (ratio (_normalize_name name) cn >? best_score st);
      [cbn; apply ratio_le_100 | exact H]. }
  destruct (best_score st1 >? 95); [exact H1|].
  apply (fold_left_inv (fun s => best_score s <= 100)); [|exact H1].
  intros s a _. apply check_alias_le_100.
Qed.

Lemma scan_le_100 names np clients :
  forall idx st,
    best_score st <= 100 ->
    best_score (scan ratio names np idx clients st) <= 100.
Proof.
  induction clients as [|c rest IH]; intros idx st H;
    cbn [scan]; [exact H|].
  destruct (String.eqb np (_normalize_name (client_name c))); [cbn; lia|].
  apply IH. rewrite quiet_record.
  apply (fold_left_inv (fun s => best_score s <= 100)); [|exact H].
  intros s n _. apply check_name_le_100.
Qed.

End AtMost100.

End ScoreFacts.

(** ** Ties go to the earlier client *)

Section TieBreak.

Variable ratio : string -> string -> Z.
Variable names : list string.
Variable all : list client.

Local Open Scope Z_scope.

Lemma first_best_set idx c st score reasons :
  first_best ratio names all idx st ->
  best_score st < score ->
  first_best ratio names all idx
    {| best_match := Some idx;
       best_score := score;
       best_client_id := Some (client_id c);
       best_client_name := Some (client_name c);
       match_reasons := reasons;
       alternative_matches := alternative_matches st |}.
Proof.
  intros [Hm _] Hs. split; cbn.
  - intros j c' n Hj Hc Hn. specialize (Hm j c' n Hj Hc Hn). lia.
  - intros i [= <-]. split; [lia|].
    intros j c' n Hj Hc Hn. specialize (Hm j c' n Hj Hc Hn). lia.
Qed.

Lemma first_best_check_alias idx c n st alias :
  first_best ratio names all idx st ->
  first_best ratio names all idx (check_alias ratio idx c n st alias).
Proof.
  intros H. unfold check_alias.
  destruct (Z.gtb_spec (ratio n (_normalize_name alias)) (best_score st));
    [|exact H].
  now apply first_best_set.
Qed.

Lemma first_best_check_name idx c cn st name :
  first_best ratio names all idx st ->
  first_best ratio names all idx (check_name ratio idx c cn st name).
Proof.
  intros H. unfold check_name.
  set (st1 := if _ >? _ then _ else st).
  assert (H1 : first_best ratio names all idx st1).
  { subst st1.
    destruct (Z.gtb_spec (ratio (_normalize_name name) cn) (best_score st));
      [|exact H].
    now apply first_best_set. }
  destruct (best_score st1 >? 95); [exact H1|].
  apply fold_left_inv; [|exact H1].
  intros a b _. apply first_best_check_alias.
Qed.

Lemma best_match_record idx c st :
  best_match (record_alternative idx c st) = best_match st.
Proof. unfold record_alternative. now destruct (_ && _). Qed.

(** The end of the iteration of the client at position [idx]. *)
Lemma first_best_next idx c st :
  nth_error all idx = Some c ->
  first_best ratio names all idx st ->
  first_best ratio names all (S idx)
    (record_alternative idx c
       (fold_left (check_name ratio idx c (_normalize_name (client_name c)))
                  names st)).
Proof.
  intros Hc H.
  set (st' := fold_left _ names st).
  assert (H' : first_best ratio names all idx st').
  { apply fold_left_inv; [|exact H]. intros a b _. apply first_best_check_name. }
  destruct H' as [Hm Hb]. split.
  - rewrite quiet_record. intros j c' n Hj Hc' Hn.
    destruct (Nat.eq_dec j idx) as [->|Hne].
    + assert (c' = c) by congruence. subst c'.
      apply (check_names_ge ratio idx c (_normalize_name (client_name c))
               names st n Hn).
    + apply (Hm j c' n); [lia | exact Hc' | exact Hn].
  - rewrite quiet_record, best_match_record. intros i Hi.
    destruct (Hb i Hi) as [Hle Hlt]. split; [lia | exact Hlt].
Qed.

Lemma first_best_scan np clients :
  forall done st,
    all = done ++ clients ->
    no_exact np clients ->
    first_best ratio names all (List.length done) st ->
    first_best ratio names all (List.length all)
               (scan ratio names np (List.length done) clients st).
Proof.
  induction clients as [|c rest IH]; intros done st E Hn H; cbn [scan].
  - subst all. now rewrite length_app, Nat.add_0_r.
  - assert (Hc : nth_error all (List.length done) = Some c).
    { subst all. rewrite nth_error_app2 by lia. now rewrite Nat.sub_diag. }
    apply no_exact_cons in Hn as [-> Hn].
    replace (S (List.length done)) with (List.length (done ++ [c]))
      by (rewrite length_app; cbn; lia).
    apply IH; [now rewrite <- app_assoc | exact Hn |].
    rewrite length_app, Nat.add_1_r. now apply first_best_next.
Qed.

Lemma first_best_final np :
  no_exact np all ->
  first_best ratio names all (List.length all)
             (scan ratio names np 0 all initial_state).
Proof.
  intros Hn. apply (first_best_scan np all [] initial_state eq_refl Hn).
  split; [intros j c n Hj; cbn in Hj; lia | intros i; discriminate].
Qed.

End TieBreak.

(** ** The confidence of a decision *)

Lemma div100_unit (k : Z) :
  (0 <= k <= 100)%Z -> (0 <= div100 k)%Q /\ (div100 k <= 1)%Q.
Proof. intros Hk. rewrite div100_eq. unfold Qle. cbn. lia. Qed.

Lemma div100_ge (k k' : Z) : (k <= k')%Z -> (k # 100 <= div100 k')%Q.
Proof. intros Hk. rewrite div100_eq. unfold Qle. cbn. lia. Qed.

Lemma div100_gt (k k' : Z) : (k < k')%Z -> (k # 100 < div100 k')%Q.
Proof. intros Hk. rewrite div100_eq. unfold Qlt. cbn. lia. Qed.

(** The confidence that a non-empty registry yields. *)
Lemma confidence_of_scan
    (ratio : string -> string -> Z) (threshold : Q)
    (c0 : client) (rest : list client) (info : client_info) (q : Q) :
  get "confidence_score" (_match_client ratio threshold (c0 :: rest) info)
    = Some (PFloat q) ->
  q = div100
        (best_score
           (scan ratio (primary_name info :: alternative_names info)
                 (_normalize_name (primary_name info)) O (c0 :: rest)
                 initial_state)).
Proof.
  rewrite match_client_nonempty. cbv zeta.
  destruct (scan_inv_final ratio (c0 :: rest)
              (primary_name info :: alternative_names info)
              (_normalize_name (primary_name info))) as (_ & Hb & _).
  remember (scan ratio _ _ _ _ _) as st eqn:Hst.
  destruct (Qle_bool threshold (div100 (best_score st)));
    cbn -[firstn sorted_desc div100]; [congruence|].
  destruct (best_match st); [congruence|].
  destruct Hb as (-> & _). cbn. congruence.
Qed.

(** X5: with a similarity between strings of at most 100, the
    confidence of every decision lies between 0.0 and 1.0. *)
Theorem confidence_in_unit_interval
    (ratio : string -> string -> Z) (threshold : Q)
    (registry : list client) (info : client_info) (q : Q) :
  (forall s t, (ratio s t <= 100)%Z) ->
  get "confidence_score" (_match_client ratio threshold registry info)
    = Some (PFloat q) ->
  (0 <= q)%Q /\ (q <= 1)%Q.
Proof.
  intros Hr Hq. destruct registry as [|c0 rest].
  - cbn in Hq. assert (q = 0%Q) by congruence. subst q.
    split; unfold Qle; cbn; lia.
  - rewrite (confidence_of_scan ratio threshold c0 rest info q Hq).
    apply div100_unit. split.
    + apply (scan_inv_final ratio (c0 :: rest)).
    + apply scan_le_100; [exact Hr | cbn; lia].
Qed.

Lemma confidence_in_unit_interval_witness :
  (0 <= 22 # 25)%Q /\ (22 # 25 <= 1)%Q.
Proof.
  exact (confidence_in_unit_interval Fuzz.ratio (3 # 4)
           [mk_client "C1" "Globex Industrial" []; mk_client "C2" "ZZZ" []]
           (mk_client_info "Globex Industries" []) (22 # 25)
           FuzzFacts.ratio_le_100 eq_refl).
Defined.

(** X6: with a similarity of at most 100, the confidence of a decision
    is at least the similarity, over 100, of every name of the
    candidate with the canonical name of every client. *)
Theorem confidence_dominates_canonical_names
    (ratio : string -> string -> Z) (threshold : Q)
    (registry : list client) (info : client_info) (q : Q)
    (c : client) (n : string) :
  (forall s t, (ratio s t <= 100)%Z) ->
  get "confidence_score" (_match_client ratio threshold registry info)
    = Some (PFloat q) ->
  In c registry ->
  In n (primary_name info :: alternative_names info) ->
  (ratio (_normalize_name n) (_normalize_name (client_name c)) # 100 <= q)%Q.
Proof.
  intros Hr Hq Hc Hn. destruct registry as [|c0 rest]; [destruct Hc|].
  rewrite (confidence_of_scan ratio threshold c0 rest info q Hq).
  apply div100_ge.
  destruct (scan_ge_names ratio (primary_name info :: alternative_names info)
              (_normalize_name (primary_name info)) (c0 :: rest) O
              initial_state) as [E|H].
  - rewrite E. apply Hr.
  - now apply H.
Qed.

Lemma confidence_dominates_canonical_names_witness :
  (Fuzz.ratio (_normalize_name "Globex Industries") (_normalize_name "ZZZ")
     # 100 <= 22 # 25)%Q.
Proof.
  apply (confidence_dominates_canonical_names Fuzz.ratio (3 # 4)
           [mk_client "C1" "Globex Industrial" []; mk_client "C2" "ZZZ" []]
           (mk_client_info "Globex Industries" []) (22 # 25)
           (mk_client "C2" "ZZZ" []) "Globex Industries"
           FuzzFacts.ratio_le_100 eq_refl).
  - right. left. reflexivity.
  - left. reflexivity.
Defined.

(** X7: for a threshold of at most 0.96, a [CREATE_NEW_CLIENT]
    decision means that no name of the candidate reaches the threshold
    against any canonical name or any alias of the registry. *)
Theorem create_new_means_nothing_reached_threshold
    (ratio : string -> string -> Z) (threshold : Q)
    (registry : list client) (info : client_info)
    (c : client) (n : string) :
  (threshold <= 24 # 25)%Q ->
  recommendation_of (_match_client ratio threshold registry info)
    = CREATE_NEW_CLIENT ->
  In c registry ->
  In n (primary_name info :: alternative_names info) ->
  (ratio (_normalize_name n) (_normalize_name (client_name c)) # 100
     < threshold)%Q /\
  forall a,
    In a (client_aliases c) ->
    (ratio (_normalize_name n) (_normalize_name a) # 100 < threshold)%Q.
Proof.
  intros Ht Hrec Hc Hn. destruct registry as [|c0 rest]; [destruct Hc|].
  rewrite match_client_nonempty in Hrec. cbv zeta in Hrec.
  remember (scan ratio (primary_name info :: alternative_names info)
              (_normalize_name (primary_name info)) O (c0 :: rest)
              initial_state) as st eqn:Hst.
  destruct (Qle_bool threshold (div100 (best_score st))) eqn:Hthr;
    [cbn in Hrec; discriminate|].
  assert (Hlt : (div100 (best_score st) < threshold)%Q).
  { apply Qnot_le_lt. intros Hle. apply Qle_bool_iff in Hle. congruence. }
  assert (H95 : (best_score st <= 95)%Z).
  { rewrite div100_eq in Hlt.
    pose proof (Qlt_le_trans _ _ _ Hlt Ht) as H.
    unfold Qlt in H. cbn in H. lia. }
  rewrite Hst in H95.
  destruct (scan_ge_all ratio _ _ _ _ _ H95 c n Hc Hn) as [Hname Halias].
  rewrite <- Hst in Hname, Halias. split.
  - apply (Qle_lt_trans _ (div100 (best_score st))); [|exact Hlt].
    now apply div100_ge.
  - intros a Ha.
    apply (Qle_lt_trans _ (div100 (best_score st))); [|exact Hlt].
    now apply div100_ge, Halias.
Qed.

Lemma create_new_means_nothing_reached_threshold_witness :
  (Fuzz.ratio (_normalize_name "Globex") (_normalize_name "Initech") # 100
     < 3 # 4)%Q /\
  (Fuzz.ratio (_normalize_name "Globex") (_normalize_name "Initrode") # 100
     < 3 # 4)%Q.
Proof.
  assert (Ht : (3 # 4 <= 24 # 25)%Q) by (unfold Qle; simpl; lia).
  destruct (create_new_means_nothing_reached_threshold Fuzz.ratio (3 # 4)
              [mk_client "C2" "Initech" ["Initrode"]]
              (mk_client_info "Globex" [])
              (mk_client "C2" "Initech" ["Initrode"]) "Globex"
              Ht eq_refl (or_introl eq_refl) (or_introl eq_refl))
    as [Hname Halias].
  split; [exact Hname | apply Halias; left; reflexivity].
Defined.

(** X8: ties go to the earlier client.  In a registry with distinct
    ids and no exact match, every name of the candidate scores
    strictly less against the canonical name of each client before the
    matched one than the confidence of the decision. *)
Theorem earlier_clients_score_less
    (ratio : string -> string -> Z) (threshold : Q) (info : client_info)
    (pre : list client) (c : client) (post : list client) (q : Q)
    (c' : client) (n : string) :
  NoDup (map client_id (pre ++ c :: post)) ->
  no_exact (_normalize_name (primary_name info)) (pre ++ c :: post) ->
  let d := _match_client ratio threshold (pre ++ c :: post) info in
  get "matched_client_id" d = Some (PStr (client_id c)) ->
  get "confidence_score" d = Some (PFloat q) ->
  In c' pre ->
  In n (primary_name info :: alternative_names info) ->
  (ratio (_normalize_name n) (_normalize_name (client_name c')) # 100 < q)%Q.
Proof.
  intros Hnd Hne. cbv zeta. intros Hid Hq Hc' Hn.
  set (all := pre ++ c :: post) in *.
  assert (Hall : exists c0 rest, all = c0 :: rest).
  { subst all. destruct pre; cbn; eauto. }
  destruct Hall as (c0 & rest & Eall).
  set (names := primary_name info :: alternative_names info) in *.
  set (np := _normalize_name (primary_name info)) in *.
  assert (Eq : q = div100 (best_score (scan ratio names np O all initial_state))).
  { rewrite Eall in Hq |- *.
    exact (confidence_of_scan ratio threshold c0 rest info q Hq). }
  destruct (scan_inv_final ratio all names np) as (_ & Hb & _).
  destruct (first_best_final ratio names all np Hne) as (_ & Hfirst).
  rewrite (match_client_scan ratio threshold all info) in Hid
    by (rewrite Eall; discriminate).
  cbv zeta in Hid. fold names np in Hid.
  remember (scan ratio names np O all initial_state) as st eqn:Hst.
  destruct (Qle_bool threshold (div100 (best_score st)));
    cbn -[firstn sorted_desc div100] in Hid; [|discriminate].
  destruct (best_match st) as [i|] eqn:Ei.
  2:{ destruct Hb as (_ & E & _). rewrite E in Hid. discriminate. }
  destruct Hb as (_ & ci & Hci & E & _). rewrite E in Hid. cbn in Hid.
  assert (Eid : client_id ci = client_id c) by congruence.
  assert (Hc : nth_error all (List.length pre) = Some c).
  { subst all. rewrite nth_error_app2 by lia. now rewrite Nat.sub_diag. }
  assert (Ei' : i = List.length pre).
  { apply (proj1 (NoDup_nth_error (map client_id all)) Hnd).
    - rewrite length_map. apply nth_error_Some. congruence.
    - rewrite !nth_error_map, Hci, Hc. cbn. now f_equal. }
  destruct (Hfirst i eq_refl) as [_ Hbelow].
  destruct (In_nth_error pre c' Hc') as [j Hj].
  assert (Hjlt : (j < List.length pre)%nat)
    by (apply nth_error_Some; congruence).
  rewrite Eq. apply div100_gt.
  apply (Hbelow j c' n); [lia | | exact Hn].
  subst all. now rewrite nth_error_app1.
Qed.

Lemma earlier_clients_score_less_witness :
  (Fuzz.ratio (_normalize_name "Globex Industries")
              (_normalize_name "Globex Inds") # 100 < 22 # 25)%Q.
Proof.
  assert (Hnd : NoDup (map client_id
                   ([mk_client "C1" "Globex Inds" []]
                    ++ mk_client "C2" "Globex Industrial" [] :: []))).
  { cbn. constructor; [|constructor; [|constructor]]; cbn; [|tauto].
    intros [H|[]]. discriminate H. }
  assert (Hne : no_exact (_normalize_name "Globex Industries")
                  ([mk_client "C1" "Globex Inds" []]
                   ++ mk_client "C2" "Globex Industrial" [] :: [])).
  { intros c [<-|[<-|[]]]; vm_compute; discriminate. }
  exact (earlier_clients_score_less Fuzz.ratio (3 # 4)
           (mk_client_info "Globex Industries" [])
           [mk_client "C1" "Globex Inds" []]
           (mk_client "C2" "Globex Industrial" []) [] (22 # 25)
           (mk_client "C1" "Globex Inds" []) "Globex Industries"
           Hnd Hne eq_refl eq_refl (or_introl eq_refl) (or_introl eq_refl)).
Defined.

(** ** The cache of the registry *)

Lemma Qlt_bool_iff (x y : Q) : Qlt_bool x y = true <-> (x < y)%Q.
Proof.
  unfold Qlt_bool. rewrite negb_true_iff. split.
  - intros H. apply Qnot_le_lt. intros Hle.
    apply Qle_bool_iff in Hle. congruence.
  - intros H. destruct (Qle_bool y x) eqn:E; [|reflexivity].
    apply Qle_bool_iff in E. now apply Qlt_not_le in H.
Qed.

Lemma Qlt_bool_false (x y : Q) : (y <= x)%Q -> Qlt_bool x y = false.
Proof.
  intros H. unfold Qlt_bool. apply Qle_bool_iff in H. now rewrite H.
Qed.

(** A mapper without a cache fetches. *)
Lemma get_clients_fetch (t : Q) (api : list client) (self : mapper) :
  client_cache self = None ->
  _get_clients t api self =
    (api, {| client_cache := Some api;
             client_cache_timestamp := Some t;
             cache_ttl := cache_ttl self |}).
Proof. intros H. unfold _get_clients. now rewrite H. Qed.

(** A cache younger than [cache_ttl] is served. *)
Lemma get_clients_hit (t : Q) (api : list client) (self : mapper)
    (cache : list client) (ts : Q) :
  client_cache self = Some cache ->
  client_cache_timestamp self = Some ts ->
  (t - ts < cache_ttl self)%Q ->
  _get_clients t api self = (cache, self).
Proof.
  intros Hc Hts Hlt. unfold _get_clients. rewrite Hc, Hts.
  apply Qlt_bool_iff in Hlt. now rewrite Hlt.
Qed.

Lemma get_clients_fetch_then_hit
    (self : mapper) (t1 t2 : Q) (api1 api2 : list client) :
  client_cache self = None ->
  (t2 - t1 < cache_ttl self)%Q ->
  _get_clients t2 api2 (snd (_get_clients t1 api1 self))
    = (api1, snd (_get_clients t1 api1 self)).
Proof.
  intros Hnone Hlt. rewrite (get_clients_fetch t1 api1 self Hnone).
  cbn [snd]. now apply (get_clients_hit t2 api2 _ api1 t1).
Qed.

(** X9: the list fetched by a mapper without a cache is returned again
    by a call made less than [cache_ttl] later, whatever ERPNext holds
    by then, and that call leaves the cache as it is. *)
Theorem cached_registry_is_reused
    (self : mapper) (t1 t2 : Q) (api1 api2 : list client) :
  client_cache self = None ->
  (t2 - t1 < cache_ttl self)%Q ->
  fst (_get_clients t1 api1 self) = api1 /\
  _get_clients t2 api2 (snd (_get_clients t1 api1 self))
    = (api1, snd (_get_clients t1 api1 self)).
Proof.
  intros Hnone Hlt. split.
  - now rewrite (get_clients_fetch t1 api1 self Hnone).
  - now apply get_clients_fetch_then_hit.
Qed.

Lemma cached_registry_is_reused_witness :
  _get_clients 4599 [mk_client "C9" "Umbrella" []]
               (snd (_get_clients 1000 [mk_client "C1" "Acme" []] new_mapper))
  = ([mk_client "C1" "Acme" []],
     snd (_get_clients 1000 [mk_client "C1" "Acme" []] new_mapper)).
Proof.
  apply (cached_registry_is_reused new_mapper 1000 4599
           [mk_client "C1" "Acme" []] [mk_client "C9" "Umbrella" []]
           eq_refl eq_refl).
Defined.

(** X10: the time to live counts from the fetch, not from the last
    call: after a fetch at [t1] and a call served from the cache at
    [t2], a call at [t3] with [cache_ttl <= t3 - t1] fetches again,
    however close [t3] is to [t2]. *)
Theorem cache_expiry_counts_from_fetch
    (self : mapper) (t1 t2 t3 : Q) (api1 api2 api3 : list client) :
  client_cache self = None ->
  (t2 - t1 < cache_ttl self)%Q ->
  (cache_ttl self <= t3 - t1)%Q ->
  let s1 := snd (_get_clients t1 api1 self) in
  let s2 := snd (_get_clients t2 api2 s1) in
  _get_clients t3 api3 s2 =
    (api3, {| client_cache := Some api3;
              client_cache_timestamp := Some t3;
              cache_ttl := cache_ttl self |}).
Proof.
  intros Hnone H2 H3. cbv zeta.
  rewrite (get_clients_fetch_then_hit self t1 t2 api1 api2 Hnone H2).
  cbn [snd]. rewrite (get_clients_fetch t1 api1 self Hnone). cbn [snd].
  unfold _get_clients. cbn. now rewrite (Qlt_bool_false _ _ H3).
Qed.

Lemma cache_expiry_counts_from_fetch_witness :
  fst (_get_clients 4600 [mk_client "C9" "Umbrella" []]
         (snd (_get_clients 4599 []
                 (snd (_get_clients 1000 [mk_client "C1" "Acme" []]
                         new_mapper)))))
  = [mk_client "C9" "Umbrella" []].
Proof.
  rewrite (cache_expiry_counts_from_fetch new_mapper 1000 4599 4600
             [mk_client "C1" "Acme" []] [] [mk_client "C9" "Umbrella" []]
             eq_refl eq_refl); [reflexivity|].
  unfold Qle. simpl. lia.
Defined.

(** X11: an empty list is cached like any other.  After a fetch that
    returned no client (as [ERPNextAPI.get_clients] does when its
    request raises), every match within [cache_ttl] is a
    [CREATE_NEW_CLIENT] decision with confidence [0.0], whatever
    ERPNext holds by then. *)
Theorem empty_fetch_is_cached
    (ratio : string -> string -> Z) (threshold : Q)
    (self : mapper) (t1 t2 : Q) (api2 : list client) (info : client_info) :
  client_cache self = None ->
  (t2 - t1 < cache_ttl self)%Q ->
  let s1 := snd (_get_clients t1 [] self) in
  let d := fst (_match_client_self ratio threshold t2 api2 s1 info) in
  recommendation_of d = CREATE_NEW_CLIENT /\
  get "confidence_score" d = Some (PFloat 0) /\
  get "matched_client_id" d = Some PNone /\
  snd (_match_client_self ratio threshold t2 api2 s1 info) = s1.
Proof.
  intros Hnone Hlt. cbv zeta. unfold _match_client_self.
  rewrite (get_clients_fetch_then_hit self t1 t2 [] api2 Hnone Hlt).
  cbn [fst snd]. repeat split.
Qed.

Lemma empty_fetch_is_cached_witness :
  recommendation_of
    (fst (_match_client_self Fuzz.ratio (3 # 4) 1060
            [mk_client "C1" "Acme" []]
            (snd (_get_clients 1000 [] new_mapper))
            (mk_client_info "Acme" [])))
  = CREATE_NEW_CLIENT.
Proof.
  apply (empty_fetch_is_cached Fuzz.ratio (3 # 4) new_mapper 1000 1060
           [mk_client "C1" "Acme" []] (mk_client_info "Acme" [])
           eq_refl eq_refl).
Defined.

(** ** The aliases of a client record *)

Module ERPNextFacts.
Import ERPNextAPI.

Lemma split_nonempty sep s : split sep s <> [].
Proof.
  destruct s as [|c s]; cbn; [discriminate|].
  destruct (Ascii.eqb c sep); [discriminate|].
  destruct (split sep s); discriminate.
Qed.

(** A string without the separator is its own single piece. *)
Lemma split_no_sep sep s :
  PyStr.all_chars (fun c => negb (Ascii.eqb c sep)) s = true ->
  split sep s = [s].
Proof.
  induction s as [|c s IH]; cbn; [reflexivity|].
  intros H. apply andb_prop in H as [Hc Hs].
  apply negb_true_iff in Hc. rewrite Hc, (IH Hs). reflexivity.
Qed.

Lemma split_app sep x r :
  PyStr.all_chars (fun c => negb (Ascii.eqb c sep)) x = true ->
  split sep (x ++ String sep r) = x :: split sep r.
Proof.
  induction x as [|c x IH]; cbn.
  - intros _. now rewrite Ascii.eqb_refl.
  - intros H. apply andb_prop in H as [Hc Hx].
    apply negb_true_iff in Hc. rewrite Hc, (IH Hx). reflexivity.
Qed.

(** No piece has the separator. *)
Lemma split_pieces sep s :
  Forall (fun w => PyStr.all_chars (fun c => negb (Ascii.eqb c sep)) w = true)
         (split sep s).
Proof.
  induction s as [|c s IH]; cbn; [repeat constructor|].
  destruct (Ascii.eqb c sep) eqn:E; [constructor; [reflexivity | exact IH]|].
  destruct (split sep s) as [|w ws]; [repeat constructor; cbn; now rewrite E|].
  inversion IH as [|? ? Hw Hws]; subst.
  constructor; [cbn; now rewrite E, Hw | exact Hws].
Qed.

Lemma split_concat sep names :
  names <> [] ->
  Forall (fun w => PyStr.all_chars (fun c => negb (Ascii.eqb c sep)) w = true)
         names ->
  split sep (String.concat (String sep "") names) = names.
Proof.
  induction names as [|x l IH]; [congruence|].
  intros _ H. inversion H as [|? ? Hx Hl]; subst.
  destruct l as [|y l'].
  - cbn. now apply split_no_sep.
  - cbn [String.concat]. cbn [append].
    rewrite (split_app sep x _ Hx). f_equal.
    apply IH; [discriminate | exact Hl].
Qed.

Lemma concat_empty sep names :
  String.concat (String sep "") names = "" -> names = [] \/ names = [""].
Proof.
  destruct names as [|x [|y l]]; cbn; [now left | intros ->; now right |].
  destruct x; cbn; discriminate.
Qed.

End ERPNextFacts.

(** X12: the aliases that [get_clients] reads from the record that
    [create_client] posts are the alternative names of the candidate
    exactly when no alternative name has a comma and the alternative
    names are not the one empty name; the canonical name is the
    primary name. *)
Theorem aliases_round_trip (stamp : string) (info : client_info) :
  let c := ERPNextAPI.client_of_data
             (ERPNextAPI.create_client_data stamp info) in
  ERPNextAPI.api_client_name c = Some (primary_name info) /\
  (ERPNextAPI.api_client_aliases c = alternative_names info <->
   Forall (fun w => PyStr.all_chars no_comma w = true) (alternative_names info)
   /\ alternative_names info <> [""]).
Proof.
  cbv zeta. split; [reflexivity|].
  unfold ERPNextAPI.client_of_data, ERPNextAPI.create_client_data.
  cbn [ERPNextAPI.cd_client_aliases ERPNextAPI.api_client_aliases
       ERPNextAPI.truthy].
  set (names := alternative_names info).
  destruct (String.eqb_spec (String.concat "," names) "") as [E|N];
    cbn [negb].
  - destruct (ERPNextFacts.concat_empty _ _ E) as [->| ->].
    + split; [intros _; split; [constructor | discriminate] | reflexivity].
    + split; [discriminate | intros [_ H]; congruence].
  - split.
    + intros H. split.
      * rewrite <- H. apply (ERPNextFacts.split_pieces ",").
      * intros H1. apply N. now rewrite H1.
    + intros [H _]. apply ERPNextFacts.split_concat; [|exact H].
      intros H0. apply N. now rewrite H0.
Qed.

Lemma aliases_round_trip_witness :
  ERPNextAPI.api_client_aliases
    (ERPNextAPI.client_of_data
       (ERPNextAPI.create_client_data "20240101120000"
          (mk_client_info "Globex Industries" ["Globex"; "GBX Inc."])))
  = ["Globex"; "GBX Inc."].
Proof.
  apply (proj2 (aliases_round_trip "20240101120000"
                  (mk_client_info "Globex Industries" ["Globex"; "GBX Inc."]))).
  split; [repeat constructor | discriminate].
Defined.

(** ** The name of the result file *)

Lemma replace_space (s : string) :
  PyStr.replace " " "_" s = map_chars underscore_space s.
Proof.
  unfold PyStr.replace. induction s as [|c s IH]; [reflexivity|].
  cbn [PyStr.replace_from prefix map_chars]. unfold underscore_space at 1.
  destruct (ascii_dec " " c) as [<-|Hn].
  - replace (prefix "" s) with true by (now destruct s).
    cbn. now rewrite IH.
  - assert (E : Ascii.eqb c " " = false)
      by (apply Ascii.eqb_neq; congruence).
    now rewrite E, IH.
Qed.

Lemma substring_map_chars f n (s : string) :
  substring 0 n (map_chars f s) = map_chars f (substring 0 n s).
Proof.
  revert s. induction n as [|n IH]; intros [|c s]; cbn; try reflexivity.
  now rewrite IH.
Qed.

Lemma length_substring_0 n (s : string) :
  String.length (substring 0 n s) = Nat.min n (String.length s).
Proof.
  revert s. induction n as [|n IH]; intros [|c s]; cbn; try reflexivity.
  now rewrite IH.
Qed.

Lemma length_map_chars f (s : string) :
  String.length (map_chars f s) = String.length s.
Proof. induction s as [|c s IH]; cbn; [reflexivity | now rewrite IH]. Qed.

Lemma map_chars_no_space (s : string) :
  PyStr.all_chars (fun c => negb (Ascii.eqb c " "))
                  (map_chars underscore_space s) = true.
Proof.
  induction s as [|c s IH]; cbn; [reflexivity|].
  rewrite IH, andb_true_r. unfold underscore_space.
  destruct (Ascii.eqb c " ") eqn:E; [reflexivity | now rewrite E].
Qed.

(** X13: the client part of the name of the result file is made of
    the first 30 characters of the primary name, each space turned
    into an underscore: it has no space and at most 30 characters, and
    two primary names with the same first 30 characters get the same
    file name at the same timestamp. *)
Theorem mapping_file_name_prefix (primary timestamp : string) :
  mapping_client_name primary
    = map_chars underscore_space (substring 0 30 primary) /\
  String.length (mapping_client_name primary)
    = Nat.min 30 (String.length primary) /\
  PyStr.all_chars (fun c => negb (Ascii.eqb c " "))
                  (mapping_client_name primary) = true /\
  forall other,
    substring 0 30 other = substring 0 30 primary ->
    mapping_file_name other timestamp = mapping_file_name primary timestamp.
Proof.
  assert (E : forall s, mapping_client_name s
                        = map_chars underscore_space (substring 0 30 s)).
  { intros s. unfold mapping_client_name.
    now rewrite replace_space, substring_map_chars. }
  repeat split.
  - apply E.
  - now rewrite E, length_map_chars, length_substring_0.
  - rewrite E. apply map_chars_no_space.
  - intros other H. unfold mapping_file_name. now rewrite !E, H.
Qed.

Lemma mapping_file_name_prefix_witness :
  mapping_file_name "Consolidated Amalgamated Holdings of Northern Europe"
                    "20240101120000"
  = mapping_file_name "Consolidated Amalgamated Holdings of America"
                      "20240101120000".
Proof.
  apply (mapping_file_name_prefix
           "Consolidated Amalgamated Holdings of America" "20240101120000").
  reflexivity.
Defined.

(** ** More on the normaliser *)

Lemma lower_char_space (c : ascii) :
  PyStr.is_space c = true -> PyStr.lower_char c = c.
Proof.
  destruct c as [[] [] [] [] [] [] [] []]; cbn; intros H;
    try reflexivity; discriminate H.
Qed.

Lemma lower_blank (s : string) :
  PyStr.all_chars PyStr.is_space s = true -> PyStr.lower s = s.
Proof.
  induction s as [|c s IH]; cbn; [reflexivity|].
  intros H. apply andb_prop in H as [Hc Hs].
  now rewrite (lower_char_space c Hc), (IH Hs).
Qed.

Lemma lstrip_blank (s : string) :
  PyStr.all_chars PyStr.is_space s = true -> PyStr.lstrip s = "".
Proof.
  induction s as [|c s IH]; cbn; [reflexivity|].
  intros H. apply andb_prop in H as [Hc Hs]. now rewrite Hc, (IH Hs).
Qed.

(** X14: every normalised name is in lower case, has no comma and no
    period, and has no whitespace at either end. *)
Theorem normalized_name_shape (name : string) :
  PyStr.all_chars lower_case (_normalize_name name) = true /\
  PyStr.all_chars no_period (_normalize_name name) = true /\
  PyStr.all_chars no_comma (_normalize_name name) = true /\
  PyStr.strip (_normalize_name name) = _normalize_name name.
Proof. exact (normalize_shape name). Qed.

(** X15: a name made of whitespace only normalises to the empty
    string, as the empty name does. *)
Theorem blank_name_normalizes_to_empty (name : string) :
  PyStr.all_chars PyStr.is_space name = true ->
  _normalize_name name = "".
Proof.
  intros H. destruct (String.eqb_spec name "") as [->|Hne]; [reflexivity|].
  rewrite (normalize_unfold name Hne), (lower_blank name H).
  assert (A : forall old, PyStr.all_chars PyStr.is_space old = false ->
                          PyStr.contains old name = false).
  { intros old Ho. now apply (PyStrFacts.absent_by_char PyStr.is_space). }
  unfold replacements. cbn [fold_left].
  rewrite (PyStrFacts.replace_absent " inc." "" name) by now apply A.
  rewrite (PyStrFacts.replace_absent " incorporated" "" name) by now apply A.
  rewrite (PyStrFacts.replace_absent " corp." "" name) by now apply A.
  rewrite (PyStrFacts.replace_absent " corporation" "" name) by now apply A.
  rewrite (PyStrFacts.replace_absent " llc" "" name) by now apply A.
  rewrite (PyStrFacts.replace_absent " l.l.c." "" name) by now apply A.
  rewrite (PyStrFacts.replace_absent " ltd" "" name) by now apply A.
  rewrite (PyStrFacts.replace_absent " limited" "" name) by now apply A.
  rewrite (PyStrFacts.replace_absent " gmbh" "" name) by now apply A.
  rewrite (PyStrFacts.replace_absent " co." "" name) by now apply A.
  rewrite (PyStrFacts.replace_absent " company" "" name) by now apply A.
  rewrite (PyStrFacts.replace_absent "," "" name) by now apply A.
  rewrite (PyStrFacts.replace_absent "." "" name) by now apply A.
  unfold PyStr.strip. now rewrite (lstrip_blank name H).
Qed.

Lemma blank_name_normalizes_to_empty_witness :
  _normalize_name "   " = "".
Proof. apply blank_name_normalizes_to_empty. reflexivity. Defined.

(** ** The candidate's names count through their normalised forms *)

Section NormalisedNames.

Variable ratio : string -> string -> Z.

Lemma check_name_normalized idx c cn st n n' :
  _normalize_name n = _normalize_name n' ->
  check_name ratio idx c cn st n = check_name ratio idx c cn st n'.
Proof. intros H. unfold check_name. now rewrite H. Qed.

Lemma check_names_normalized idx c cn names :
  forall names' st,
    map _normalize_name names = map _normalize_name names' ->
    fold_left (check_name ratio idx c cn) names st
    = fold_left (check_name ratio idx c cn) names' st.
Proof.
  induction names as [|n l IH]; intros [|n' l'] st H; cbn in H;
    try discriminate; [reflexivity|].
  injection H as Hn Hl. cbn [fold_left].
  rewrite (check_name_normalized idx c cn st n n' Hn). now apply IH.
Qed.

Lemma scan_normalized names names' np clients :
  map _normalize_name names = map _normalize_name names' ->
  forall idx st,
    scan ratio names np idx clients st = scan ratio names' np idx clients st.
Proof.
  intros H. induction clients as [|c rest IH]; intros idx st; cbn [scan];
    [reflexivity|].
  destruct (String.eqb np (_normalize_name (client_name c))); [reflexivity|].
  rewrite (check_names_normalized idx c _ names names' st H). apply IH.
Qed.

End NormalisedNames.

(** X16: two candidates whose names have the same normalised forms, in
    the same order, get the same decision but for the suggested name:
    the same outcome, client, confidence, reasons and alternatives. *)
Theorem decision_depends_on_normalized_names
    (ratio : string -> string -> Z) (threshold : Q)
    (registry : list client) (info info' : client_info) :
  map _normalize_name (primary_name info :: alternative_names info)
    = map _normalize_name (primary_name info' :: alternative_names info') ->
  let d := _match_client ratio threshold registry info in
  let d' := _match_client ratio threshold registry info' in
  recommendation_of d = recommendation_of d' /\
  get "matched_client_id" d = get "matched_client_id" d' /\
  get "matched_client_name" d = get "matched_client_name" d' /\
  get "confidence_score" d = get "confidence_score" d' /\
  get "match_reasons" d = get "match_reasons" d' /\
  get "alternative_matches" d = get "alternative_matches" d'.
Proof.
  intros H. cbv zeta. destruct registry as [|c0 rest];
    [cbn; repeat split|].
  rewrite !match_client_nonempty. cbv zeta.
  assert (Hp : _normalize_name (primary_name info)
               = _normalize_name (primary_name info'))
    by (cbn in H; congruence).
  rewrite <- Hp.
  rewrite <- (scan_normalized ratio _ _ _ (c0 :: rest) H O initial_state).
  remember (scan ratio (primary_name info :: alternative_names info)
              (_normalize_name (primary_name info)) O (c0 :: rest)
              initial_state) as st eqn:Hst.
  destruct (Qle_bool threshold (div100 (best_score st)));
    cbn -[firstn sorted_desc div100]; repeat split.
Qed.

Lemma decision_depends_on_normalized_names_witness :
  get "matched_client_id"
      (_match_client Fuzz.ratio (3 # 4)
         [mk_client "C1" "Globex Industrial" []]
         (mk_client_info "GLOBEX INDUSTRIES, LTD." []))
  = get "matched_client_id"
      (_match_client Fuzz.ratio (3 # 4)
         [mk_client "C1" "Globex Industrial" []]
         (mk_client_info "Globex Industries" [])).
Proof.
  apply (decision_depends_on_normalized_names Fuzz.ratio (3 # 4)
           [mk_client "C1" "Globex Industrial" []]
           (mk_client_info "GLOBEX INDUSTRIES, LTD." [])
           (mk_client_info "Globex Industries" [])).
  reflexivity.
Defined.

(** ** Clients added at the end of the registry *)

Section Extend.

Variable ratio : string -> string -> Z.
Hypothesis ratio_le_100 : forall s t, (ratio s t <= 100)%Z.

Lemma scan_extend names np post pre :
  forall idx st,
    (best_score st <= 100)%Z ->
    (best_score (scan ratio names np idx pre st)
       <= best_score (scan ratio names np idx (pre ++ post) st))%Z.
Proof.
  induction pre as [|c pre' IH]; intros idx st H; cbn [app].
  - change (scan ratio names np idx [] st) with st.
    destruct (scan_mono ratio names np post idx st) as [E|Hle]; lia.
  - cbn [scan].
    destruct (String.eqb np (_normalize_name (client_name c))); [lia|].
    apply IH. rewrite quiet_record.
    apply (fold_left_inv (fun s => (best_score s <= 100)%Z)); [|exact H].
    intros s n _. now apply check_name_le_100.
Qed.

End Extend.

(** X17: with a similarity of at most 100, clients added at the end of
    the registry never lower the confidence of the decision, and never
    turn an accepted match into [CREATE_NEW_CLIENT]. *)
Theorem appended_clients_keep_confidence
    (ratio : string -> string -> Z) (threshold : Q)
    (pre post : list client) (info : client_info) (q q' : Q) :
  (forall s t, (ratio s t <= 100)%Z) ->
  let d := _match_client ratio threshold pre info in
  let d' := _match_client ratio threshold (pre ++ post) info in
  get "confidence_score" d = Some (PFloat q) ->
  get "confidence_score" d' = Some (PFloat q') ->
  (q <= q')%Q /\
  (recommendation_of d = USE_MATCH -> recommendation_of d' = USE_MATCH).
Proof.
  intros Hr. cbv zeta. intros Hq Hq'.
  destruct pre as [|c0 rest].
  - cbn in Hq. assert (q = 0%Q) by congruence. subst q.
    split; [|cbn; discriminate].
    cbn [app] in Hq'. destruct post as [|c1 post'].
    + cbn in Hq'. assert (q' = 0%Q) by congruence. subst q'.
      unfold Qle. cbn. lia.
    + rewrite (confidence_of_scan ratio threshold c1 post' info q' Hq').
      apply div100_unit. split.
      * apply (scan_inv_final ratio (c1 :: post')).
      * apply scan_le_100; [exact Hr | cbn; lia].
  - pose proof (scan_extend ratio Hr
                  (primary_name info :: alternative_names info)
                  (_normalize_name (primary_name info)) post (c0 :: rest)
                  O initial_state ltac:(cbn; lia)) as Hle.
    cbn [app] in Hq', Hle |- *.
    rewrite (confidence_of_scan ratio threshold c0 rest info q Hq).
    rewrite (confidence_of_scan ratio threshold c0 (rest ++ post) info q' Hq').
    split; [now apply div100_le|].
    rewrite !match_client_nonempty. cbv zeta.
    remember (scan ratio _ _ _ (c0 :: rest) _) as st eqn:Hst.
    remember (scan ratio _ _ _ (c0 :: rest ++ post) _) as st' eqn:Hst'.
    destruct (Qle_bool threshold (div100 (best_score st))) eqn:E;
      [|cbn; discriminate].
    intros _. apply Qle_bool_iff in E.
    assert (E' : Qle_bool threshold (div100 (best_score st')) = true).
    { apply Qle_bool_iff. apply (Qle_trans _ _ _ E). now apply div100_le. }
    now rewrite E'.
Qed.

Lemma appended_clients_keep_confidence_witness :
  (22 # 25 <= 1)%Q.
Proof.
  apply (appended_clients_keep_confidence Fuzz.ratio (3 # 4)
           [mk_client "C1" "Globex Industrial" []]
           [mk_client "C2" "Globex Industries Ltd" []]
           (mk_client_info "Globex Industries" []) (22 # 25) 1
           FuzzFacts.ratio_le_100 eq_refl eq_refl).
Defined.

(** ** The invariant of a decision *)

(** C4 (amended): for every threshold, an accepted match has a
    confidence of at least the threshold, and it names its client
    unless that confidence is [0.0] (so it names it for every positive
    threshold); a [CREATE_NEW_CLIENT] decision names no client. *)
Theorem decision_invariant
    (ratio : string -> string -> Z) (threshold : Q)
    (registry : list client) (info : client_info) :
  let d := _match_client ratio threshold registry info in
  match recommendation_of d with
  | USE_MATCH =>
      exists q,
        get "confidence_score" d = Some (PFloat q) /\
        (threshold <= q)%Q /\
        ((exists id, get "matched_client_id" d = Some (PStr id)) \/
         (q = 0%Q /\ get "matched_client_id" d = Some PNone))
  | CREATE_NEW_CLIENT => get "matched_client_id" d = Some PNone
  end.
Proof.
  cbv zeta. by_branch ratio threshold registry info; try reflexivity.
  apply Qle_bool_iff in Hthr.
  destruct (scan_inv_final ratio (c0 :: rest)
              (primary_name info :: alternative_names info)
              (_normalize_name (primary_name info))) as (_ & Hb & _).
  rewrite <- Hst in Hb.
  exists (div100 (best_score st)). split; [reflexivity|].
  split; [exact Hthr|].
  destruct (best_match st) as [i|].
  - destruct Hb as (_ & c & _ & -> & _). left. now exists (client_id c).
  - destruct Hb as (-> & -> & _). right. split; reflexivity.
Qed.

(** ** The alias match, whatever the earlier aliases score *)

Section AliasFirst.

Variable ratio : string -> string -> Z.
Hypothesis ratio_le_100 : forall s t, (ratio s t <= 100)%Z.

Local Open Scope Z_scope.

(** The first alias that scores 100. *)
Lemma first_100_split (n : string) (aliases : list string) :
  (exists a0, In a0 aliases /\ ratio n (_normalize_name a0) = 100) ->
  exists apre a apost,
    aliases = apre ++ a :: apost /\
    forallb (fun a' => ratio n (_normalize_name a') <? 100) apre = true /\
    ratio n (_normalize_name a) = 100.
Proof.
  induction aliases as [|a1 l IH]; intros (a0 & Hin & Ha0); [destruct Hin|].
  destruct (Z.eq_dec (ratio n (_normalize_name a1)) 100) as [E|N].
  - exists [], a1, l. now repeat split.
  - destruct IH as (apre & a & apost & -> & Hpre & Ha).
    { exists a0. split; [|exact Ha0].
      destruct Hin as [<-|Hin]; [contradiction | exact Hin]. }
    exists (a1 :: apre), a, apost. repeat split; [|exact Ha].
    cbn [forallb]. rewrite Hpre, andb_true_r.
    pose proof (ratio_le_100 n (_normalize_name a1)). apply Z.ltb_lt. lia.
Qed.

Lemma below_100_check_aliases idx c n aliases :
  forallb (fun a => ratio n (_normalize_name a) <? 100) aliases = true ->
  forall st,
    best_score st < 100 ->
    best_score (fold_left (check_alias ratio idx c n) aliases st) < 100.
Proof.
  induction aliases as [|a l IH]; intros Hq st H; cbn [fold_left];
    [exact H|].
  cbn [forallb] in Hq. apply andb_prop in Hq as [Ha Hl].
  apply Z.ltb_lt in Ha. apply IH; [exact Hl|].
  unfold check_alias. now destruct (_ >? _).
Qed.

Lemma alias_hit_first idx c st primary apre a apost :
  best_score st <= 95 ->
  ratio (_normalize_name primary) (_normalize_name (client_name c)) <= 95 ->
  client_aliases c = apre ++ a :: apost ->
  forallb (fun a' => ratio (_normalize_name primary) (_normalize_name a') <? 100)
          apre = true ->
  ratio (_normalize_name primary) (_normalize_name a) = 100 ->
  selected_by_alias c a
    (check_name ratio idx c (_normalize_name (client_name c)) st primary).
Proof.
  intros H Hn Hal Hpre Ha. unfold check_name.
  set (st1 := if _ >? _ then _ else st).
  assert (H1 : best_score st1 <= 95) by (subst st1; now destruct (_ >? _)).
  destruct (Z.gtb_spec (best_score st1) 95); [lia|].
  rewrite Hal, fold_left_app. cbn [fold_left].
  pose proof (below_100_check_aliases idx c (_normalize_name primary) apre
                Hpre st1 ltac:(lia)) as H2.
  set (st2 := fold_left _ apre st1) in *.
  unfold check_alias at 2. rewrite Ha.
  destruct (Z.gtb_spec 100 (best_score st2)); [|lia].
  rewrite (frozen_check_aliases ratio ratio_le_100) by reflexivity.
  now repeat split.
Qed.

Lemma alias_hit_first_scan names idx c rest st primary apre a apost :
  no_exact (_normalize_name primary) (c :: rest) ->
  best_score st <= 95 ->
  ratio (_normalize_name primary) (_normalize_name (client_name c)) <= 95 ->
  client_aliases c = apre ++ a :: apost ->
  forallb (fun a' => ratio (_normalize_name primary) (_normalize_name a') <? 100)
          apre = true ->
  ratio (_normalize_name primary) (_normalize_name a) = 100 ->
  selected_by_alias c a
    (scan ratio (primary :: names) (_normalize_name primary) idx
          (c :: rest) st).
Proof.
  intros Hn H Hc Hal Hpre Ha. cbn [scan].
  apply no_exact_cons in Hn as [-> Hn]. cbn [fold_left].
  pose proof (alias_hit_first idx c st primary apre a apost H Hc Hal Hpre Ha)
    as Hit.
  set (st' := check_name _ _ _ _ _ _) in *.
  assert (E : best_score st' = 100) by apply Hit.
  rewrite (frozen_check_names ratio ratio_le_100),
          (frozen_record), (frozen_scan ratio ratio_le_100); assumption.
Qed.

End AliasFirst.

(** C9 (amended): let the similarity be at most 100, and 100 on equal
    strings.  When the primary name normalises to an alias of a client
    and to no canonical name, and every comparison made before the
    aliases of that client are reached (all those of the earlier
    clients, and that of the primary name with the canonical name of
    this client) scores at most 95, then for a threshold of at most
    [1.0] this client is selected with confidence [1.0], and the one
    reason names the winning alias: the first alias of the client that
    scores 100 against the primary name, whatever its earlier aliases
    score. *)
Theorem alias_match_selected
    (ratio : string -> string -> Z) (threshold : Q) (info : client_info)
    (pre : list client) (c : client) (post : list client) (a0 : string) :
  (forall s t, (ratio s t <= 100)%Z) ->
  (forall s, ratio s s = 100%Z) ->
  (threshold <= 1)%Q ->
  In a0 (client_aliases c) ->
  _normalize_name (primary_name info) = _normalize_name a0 ->
  no_exact (_normalize_name (primary_name info)) (pre ++ c :: post) ->
  forallb (scores_at_most ratio 95
             (primary_name info :: alternative_names info)) pre = true ->
  (ratio (_normalize_name (primary_name info))
         (_normalize_name (client_name c)) <= 95)%Z ->
  let d := _match_client ratio threshold (pre ++ c :: post) info in
  recommendation_of d = USE_MATCH /\
  get "matched_client_id" d = Some (PStr (client_id c)) /\
  get "matched_client_name" d = Some (PStr (client_name c)) /\
  get "confidence_score" d = Some (PFloat 1) /\
  exists apre a apost,
    client_aliases c = apre ++ a :: apost /\
    forallb (fun a' => (ratio (_normalize_name (primary_name info))
                              (_normalize_name a') <? 100)%Z) apre = true /\
    ratio (_normalize_name (primary_name info)) (_normalize_name a) = 100%Z /\
    get "match_reasons" d = Some (PStrList [alias_reason 100 a]).
Proof.
  intros Hle Hrefl Ht Hin Ha0 Hn Hq Hc. cbv zeta.
  assert (Hpre : no_exact (_normalize_name (primary_name info)) pre).
  { intros c' Hc'. apply Hn, in_or_app. now left. }
  assert (Hrest : no_exact (_normalize_name (primary_name info)) (c :: post)).
  { intros c' Hc'. apply Hn, in_or_app. now right. }
  destruct (first_100_split ratio Hle (_normalize_name (primary_name info))
              (client_aliases c)) as (apre & a & apost & Hal & Hapre & Ha).
  { exists a0. split; [exact Hin|]. rewrite <- Ha0. apply Hrefl. }
  rewrite match_client_scan by (destruct pre; discriminate).
  cbv zeta. rewrite (scan_app ratio _ _ pre (c :: post) Hpre).
  pose proof (quiet_scan ratio _ _ pre Hpre Hq O initial_state
                ltac:(cbn; lia)) as H95.
  set (st0 := scan ratio _ _ _ pre _) in *.
  destruct (alias_hit_first_scan ratio Hle (alternative_names info)
              (0 + List.length pre) c post st0 (primary_name info)
              apre a apost Hrest H95 Hc Hal Hapre Ha)
    as (E1 & E2 & E3 & E4).
  rewrite E1, E2, E3, E4, div100_100.
  apply Qle_bool_iff in Ht. rewrite Ht.
  repeat split. exists apre, a, apost. now repeat split.
Qed.

Lemma alias_match_selected_witness :
  let info := mk_client_info "Globex Trust" [] in
  let pre := [mk_client "C1" "Qq" ["Ww"]] in
  let c := mk_client "C2" "Zed" ["Globex Trus"; "Globex Trust"; "Glbx"] in
  let post := [mk_client "C3" "Vv" []] in
  Fuzz.ratio (_normalize_name "Globex Trust") (_normalize_name "Globex Trus")
    = 96%Z /\
  get "matched_client_id"
      (_match_client Fuzz.ratio (3 # 4) (pre ++ c :: post) info)
    = Some (PStr "C2") /\
  exists a,
    get "match_reasons"
        (_match_client Fuzz.ratio (3 # 4) (pre ++ c :: post) info)
      = Some (PStrList [alias_reason 100 a]).
Proof.
  cbv zeta.
  assert (Ht : (3 # 4 <= 1)%Q) by (unfold Qle; simpl; lia).
  assert (Hn : no_exact (_normalize_name "Globex Trust")
                 ([mk_client "C1" "Qq" ["Ww"]]
                  ++ mk_client "C2" "Zed"
                       ["Globex Trus"; "Globex Trust"; "Glbx"]
                  :: [mk_client "C3" "Vv" []])).
  { intros c' [<-|[<-|[<-|[]]]]; vm_compute; discriminate. }
  assert (Hq : forallb (scores_at_most Fuzz.ratio 95 ["Globex Trust"])
                       [mk_client "C1" "Qq" ["Ww"]] = true)
    by (vm_compute; reflexivity).
  assert (Hc : (Fuzz.ratio (_normalize_name "Globex Trust")
                           (_normalize_name "Zed") <= 95)%Z)
    by (vm_compute; discriminate).
  assert (Ha0 : _normalize_name "Globex Trust" = _normalize_name "Globex Trust")
    by reflexivity.
  destruct (alias_match_selected Fuzz.ratio (3 # 4)
              (mk_client_info "Globex Trust" [])
              [mk_client "C1" "Qq" ["Ww"]]
              (mk_client "C2" "Zed" ["Globex Trus"; "Globex Trust"; "Glbx"])
              [mk_client "C3" "Vv" []]
              "Globex Trust"
              FuzzFacts.ratio_le_100 FuzzFacts.ratio_refl Ht
              (or_intror (or_introl eq_refl)) Ha0 Hn Hq Hc)
    as (_ & Hid & _ & _ & (apre & a & apost & _ & _ & _ & Hr)).
  split; [vm_compute; reflexivity|].
  split; [exact Hid | now exists a].
Defined.
